(** * GoChat: the chat room of [server/server.go]

    A shallow embedding of the room state ([ChatRoom]), the name allocator
    ([assignName]) and the four RPC handlers ([Join], [Send], [GetUpdates],
    [Leave]), followed by the properties of the room that the design
    document states.

    Modelling choices.
    - Go's [int] is the 64-bit two's complement integer of the gc compiler
      on amd64/arm64: a [Z] with the wrap-around of [+] and [-] written out
      ([GoInt.add], [GoInt.sub]).  [%] is truncated remainder ([Z.rem]).
    - [map[string]*Client] is a [gmap string Client.t].  The pointers stored
      in the map are never handed out of a handler, so the only alias of a
      client is its map entry: the write [cl.LastSeen = msg.ID] of [Send] is
      the update of that entry.
    - [[]Message] is a [list Message.t]; [append] adds at the end.  The
      length of a Go slice is an [int], which [slice_ok] records.
    - [time.Now()] is an input: every handler receives the readings of the
      clock it would take, one per call site.
    - A handler gets the reply object through a pointer and assigns some of
      its fields; here it receives the reply value and returns the updated
      one, together with the new room and the [error] ([None] is [nil]).
    - Every handler runs under [cr.mu] from its first to its last statement,
      so a handler is one atomic step on the room.  The lines printed on the
      server console are not part of the room and are left out. *)

From Stdlib Require Import ZArith String List Lia.
From stdpp Require Import gmap strings list fin_maps pretty sorting.

Open Scope Z_scope.

(** ** Go integers *)

Module GoInt.

Definition min_int : Z := - 2 ^ 63.
Definition max_int : Z := 2 ^ 63 - 1.

(** The value of an [int] expression whose mathematical value is [z]. *)
Definition wrap (z : Z) : Z := (z + 2 ^ 63) mod 2 ^ 64 - 2 ^ 63.

Definition add (a b : Z) : Z := wrap (a + b).
Definition sub (a b : Z) : Z := wrap (a - b).

(** [a % b] for [b <> 0] and [b <> -1]. *)
Definition rem (a b : Z) : Z := Z.rem a b.

Definition in_range (z : Z) : Prop := min_int <= z <= max_int.

End GoInt.

(** [len(s)] is an [int]. *)
Definition slice_ok {A : Type} (s : list A) : Prop :=
  Z.of_nat (length s) <= GoInt.max_int.

(** ** Data model *)

(** [time.Time], as the instant it denotes: nanoseconds since the Unix
    epoch, which is what [UnixNano] returns. *)
Record Time := mkTime { UnixNano : Z }.

Module Message.
Record t := mk { ID : Z; Sender : string; Content : string; Time : Time }.
End Message.

Module Client.
Record t := mk { ID : string; LastSeen : Z; JoinedAt : Time; Original : string }.
End Client.

Record ChatRoom := mkChatRoom {
  clients   : gmap string Client.t;
  logs      : list Message.t;
  nextID    : Z;
  nameUsage : gmap string Z
}.

Definition NewChatRoom : ChatRoom :=
  {| clients := ∅; logs := []; nextID := 1; nameUsage := ∅ |}.

(** ** RPC argument types *)

Module JoinArgs.
Record t := mk { RequestedName : string }.
End JoinArgs.

Module JoinReply.
Record t := mk { Success : bool; AssignedName : string; Message : string }.
Definition zero : t := mk false "" "".
End JoinReply.

Module SendArgs.
Record t := mk { ID : string; Message : string }.
End SendArgs.

Module SendReply.
Record t := mk { Success : bool }.
Definition zero : t := mk false.
End SendReply.

Module UpdateArgs.
Record t := mk { ID : string; LastMsgID : Z }.
End UpdateArgs.

Module UpdateReply.
Record t := mk { Messages : list Message.t; NewMsgID : Z }.
Definition zero : t := mk [] 0.
End UpdateReply.

(** The anonymous [struct{ ID string }] of [Leave]. *)
Module LeaveArgs.
Record t := mk { ID : string }.
End LeaveArgs.

(** [fmt.Errorf(msg)] *)
Inductive error := Errorf (msg : string).

(** ** Helper: create unique name *)

(** [fmt.Sprintf("%s%d", base, i)] *)
Definition Sprintf_s_d (base : string) (i : Z) : string :=
  base +:+ pretty i.

(** [fmt.Sprintf("%s_%d", base, n)] *)
Definition Sprintf_s__d (base : string) (n : Z) : string :=
  base +:+ "_" +:+ pretty n.

(** The loop [for i := 1; i <= 99; i++] of [assignName], entered at [i]
    with [todo] iterations left; [Some c] is [return c] from inside the
    loop, [None] is falling out of it. *)
Fixpoint assignName_loop (cr : ChatRoom) (base : string) (todo : nat) (i : Z)
  : option string :=
  match todo with
  | O => None
  | S todo' =>
      let candidate := Sprintf_s_d base i in
      match clients cr !! candidate with
      | None => Some candidate
      | Some _ => assignName_loop cr base todo' (i + 1)
      end
  end.

(** [now] is the reading of [time.Now()] in the last line. *)
Definition assignName (cr : ChatRoom) (base : string) (now : Time) : string :=
  let base := if decide (base = "") then "Guest" else base in
  match clients cr !! base with
  | None => base
  | Some _ =>
      match assignName_loop cr base 99 1 with
      | Some candidate => candidate
      | None => Sprintf_s__d base (GoInt.rem (UnixNano now) 9999)
      end
  end.

(** ** RPC methods *)

(** The readings of the clock taken by one [Join]: in [assignName], for
    [JoinedAt], and for the system message. *)
Record JoinClock := mkJoinClock {
  at_assign : Time; at_joined : Time; at_notice : Time
}.

Definition Join (cr : ChatRoom) (args : JoinArgs.t) (reply : JoinReply.t)
    (clock : JoinClock) : ChatRoom * JoinReply.t * option error :=
  let chosen := assignName cr (JoinArgs.RequestedName args) (at_assign clock) in
  let cl := {| Client.ID := chosen;
               Client.LastSeen := GoInt.sub (nextID cr) 1;
               Client.JoinedAt := at_joined clock;
               Client.Original := JoinArgs.RequestedName args |} in
  let sys := {| Message.ID := nextID cr;
                Message.Sender := "System";
                Message.Content := "User " +:+ chosen +:+ " joined the chat";
                Message.Time := at_notice clock |} in
  ({| clients := <[chosen := cl]> (clients cr);
      logs := logs cr ++ [sys];
      nextID := GoInt.add (nextID cr) 1;
      nameUsage := nameUsage cr |},
   {| JoinReply.Success := true;
      JoinReply.AssignedName := chosen;
      JoinReply.Message := "Welcome! You are now " +:+ chosen |},
   None).

Definition Send (cr : ChatRoom) (args : SendArgs.t) (reply : SendReply.t)
    (now : Time) : ChatRoom * SendReply.t * option error :=
  match clients cr !! SendArgs.ID args with
  | None => (cr, reply, Some (Errorf "user not registered"))
  | Some cl =>
      let msg := {| Message.ID := nextID cr;
                    Message.Sender := SendArgs.ID args;
                    Message.Content := SendArgs.Message args;
                    Message.Time := now |} in
      let cl' := {| Client.ID := Client.ID cl;
                    Client.LastSeen := Message.ID msg;
                    Client.JoinedAt := Client.JoinedAt cl;
                    Client.Original := Client.Original cl |} in
      ({| clients := <[SendArgs.ID args := cl']> (clients cr);
          logs := logs cr ++ [msg];
          nextID := GoInt.add (nextID cr) 1;
          nameUsage := nameUsage cr |},
       {| SendReply.Success := true |},
       None)
  end.

(** The loop [for _, m := range cr.logs] of [GetUpdates] over the rest [ms]
    of the log, with the current values of [newList] and [maxID]. *)
Fixpoint GetUpdates_loop (args : UpdateArgs.t) (ms : list Message.t)
    (newList : list Message.t) (maxID : Z) : list Message.t * Z :=
  match ms with
  | [] => (newList, maxID)
  | m :: ms' =>
      if Message.ID m >? UpdateArgs.LastMsgID args then
        if decide (Message.Sender m = UpdateArgs.ID args) then
          GetUpdates_loop args ms' newList maxID
        else
          GetUpdates_loop args ms' (newList ++ [m]) (Message.ID m)
      else
        GetUpdates_loop args ms' newList maxID
  end.

Definition GetUpdates (cr : ChatRoom) (args : UpdateArgs.t)
    (reply : UpdateReply.t) : ChatRoom * UpdateReply.t * option error :=
  match clients cr !! UpdateArgs.ID args with
  | None => (cr, reply, Some (Errorf "unknown client"))
  | Some _ =>
      let '(newList, maxID) :=
        GetUpdates_loop args (logs cr) [] (UpdateArgs.LastMsgID args) in
      (cr,
       {| UpdateReply.Messages := newList; UpdateReply.NewMsgID := maxID |},
       None)
  end.

Definition Leave (cr : ChatRoom) (args : LeaveArgs.t) (reply : JoinReply.t)
    (now : Time) : ChatRoom * JoinReply.t * option error :=
  match clients cr !! LeaveArgs.ID args with
  | None => (cr, reply, None)
  | Some _ =>
      let leaveMsg :=
        {| Message.ID := nextID cr;
           Message.Sender := "System";
           Message.Content := "User " +:+ LeaveArgs.ID args +:+ " left the chat";
           Message.Time := now |} in
      ({| clients := delete (LeaveArgs.ID args) (clients cr);
          logs := logs cr ++ [leaveMsg];
          nextID := GoInt.add (nextID cr) 1;
          nameUsage := nameUsage cr |},
       {| JoinReply.Success := true;
          JoinReply.AssignedName := JoinReply.AssignedName reply;
          JoinReply.Message := "Disconnected" |},
       None)
  end.

(** ** Serving calls

    [rpc.ServeConn] hands every handler a freshly allocated, zero reply. *)

Inductive Call :=
| CallJoin (args : JoinArgs.t) (clock : JoinClock)
| CallSend (args : SendArgs.t) (now : Time)
| CallGetUpdates (args : UpdateArgs.t)
| CallLeave (args : LeaveArgs.t) (now : Time).

Inductive Reply :=
| ReplyJoin (r : JoinReply.t)
| ReplySend (r : SendReply.t)
| ReplyUpdate (r : UpdateReply.t)
| ReplyLeave (r : JoinReply.t).

Definition serve (cr : ChatRoom) (c : Call) : ChatRoom * Reply * option error :=
  match c with
  | CallJoin args clock =>
      let '(cr', r, e) := Join cr args JoinReply.zero clock in (cr', ReplyJoin r, e)
  | CallSend args now =>
      let '(cr', r, e) := Send cr args SendReply.zero now in (cr', ReplySend r, e)
  | CallGetUpdates args =>
      let '(cr', r, e) := GetUpdates cr args UpdateReply.zero in (cr', ReplyUpdate r, e)
  | CallLeave args now =>
      let '(cr', r, e) := Leave cr args JoinReply.zero now in (cr', ReplyLeave r, e)
  end.

(** The room after one call, and after a sequence of calls served one
    after the other. *)
Definition step (cr : ChatRoom) (c : Call) : ChatRoom := (serve cr c).1.1.

Definition run (cr : ChatRoom) (cs : list Call) : ChatRoom := fold_left step cs cr.

(** The rooms the server can be in. *)
Definition reachable (cr : ChatRoom) : Prop := ∃ cs, cr = run NewChatRoom cs.

(** ** The client's receiver

    The goroutine of the client's [main] that polls the room: every 250 ms
    it calls [ChatRoom.GetUpdates] with its cursor [lastSeen], prints what
    comes back and moves the cursor.  [conn.Call] is the call of the
    handler on the room, over a connection that delivers: what the client
    gets is the handler's error, or else the handler's reply decoded into
    the client's own reply type. *)

(** The element type of [updateResp.Messages]: the client declares no
    [Time] field, and gob matches fields by name. *)
Module Received.
Record t := mk { ID : Z; Sender : string; Content : string }.
End Received.

Definition decode (m : Message.t) : Received.t :=
  {| Received.ID := Message.ID m;
     Received.Sender := Message.Sender m;
     Received.Content := Message.Content m |}.

(** The string of the one character [\n]. *)
Definition newline : string := String (Ascii.ascii_of_nat 10) "".

(** What the loop over [updateResp.Messages] prints for one message. *)
Definition show (m : Received.t) : string :=
  (if decide (Received.Sender m = "System")
   then newline +:+ "[SYSTEM] " +:+ Received.Content m +:+ newline
   else newline +:+ Received.Sender m +:+ ": " +:+ Received.Content m +:+ newline)
  +:+ "> ".

(** The receiver between two turns: polling with its cursor, or returned. *)
Inductive Receiver := Polling (lastSeen : Z) | Stopped.

(** One turn of the receiver, when its timer fires: the messages it
    prints, the text on the terminal, and how it goes on. *)
Definition receive (cr : ChatRoom) (username : string) (lastSeen : Z)
  : list Received.t * string * Receiver :=
  match GetUpdates cr (UpdateArgs.mk username lastSeen) UpdateReply.zero with
  | (_, _, Some _) => ([], newline +:+ "[Connection lost]" +:+ newline, Stopped)
  | (_, r, None) =>
      let Messages := decode <$> UpdateReply.Messages r in
      if Z.of_nat (length Messages) >? 0 then
        (Messages, foldr (λ m out, show m +:+ out) "" Messages,
         Polling (UpdateReply.NewMsgID r))
      else
        ([], "", Polling lastSeen)
  end.

(** A client's receiver next to the room: the room, the receiver and the
    messages printed so far.  Between two turns of the receiver the server
    serves calls of any client. *)
Record Session := mkSession {
  room : ChatRoom; receiver : Receiver; screen : list Received.t
}.

Inductive Event := Served (c : Call) | Tick.

Definition session_step (username : string) (s : Session) (e : Event) : Session :=
  match e with
  | Served c =>
      {| room := step (room s) c; receiver := receiver s; screen := screen s |}
  | Tick =>
      match receiver s with
      | Stopped => s
      | Polling lastSeen =>
          let '(shown, _, next) := receive (room s) username lastSeen in
          {| room := room s; receiver := next; screen := screen s ++ shown |}
      end
  end.

Definition session_run (username : string) (s : Session) (evs : list Event)
  : Session :=
  fold_left (session_step username) evs s.

(** The receiver as [main] starts it: [lastSeen := 0]. *)
Definition session_start (cr : ChatRoom) : Session :=
  {| room := cr; receiver := Polling 0; screen := [] |}.

(** * Vocabulary of the properties *)

(** ** Errors *)

(** The error of [Send] for an id that is not registered. *)
Definition NotRegistered : error := Errorf "user not registered".

(** The error of [GetUpdates] for an id that is not registered. *)
Definition UnknownClient : error := Errorf "unknown client".

(** ** The registry *)

(** Every client is stored under its own id. *)
Definition registry_keyed (cr : ChatRoom) : Prop :=
  ∀ k c, clients cr !! k = Some c → Client.ID c = k.

(** The base name: "Guest" for the empty request. *)
Definition base_name (requested : string) : string :=
  if decide (requested = "") then "Guest" else requested.

(** The names assigned to a sequence of joins served one after the other. *)
Fixpoint assigned_names (cr : ChatRoom) (reqs : list (JoinArgs.t * JoinClock))
  : list string :=
  match reqs with
  | [] => []
  | (args, clock) :: reqs' =>
      let '(cr', r, _) := Join cr args JoinReply.zero clock in
      JoinReply.AssignedName r :: assigned_names cr' reqs'
  end.

(** ** The log *)

(** What a handler does to the log: nothing, or one [append] of a message
    numbered by the counter, which then advances. *)
Inductive log_change (cr cr' : ChatRoom) : Prop :=
| log_same : logs cr' = logs cr → nextID cr' = nextID cr → log_change cr cr'
| log_append (m : Message.t) :
    logs cr' = logs cr ++ [m] → Message.ID m = nextID cr →
    nextID cr' = GoInt.add (nextID cr) 1 → log_change cr cr'.

(** The [i]-th message of the log (from 0) carries the [int] [i + 1], and
    the counter is the [int] after the last one. *)
Definition log_numbered (cr : ChatRoom) : Prop :=
  (∀ i m, logs cr !! i = Some m → Message.ID m = GoInt.wrap (Z.of_nat i + 1))
  ∧ nextID cr = GoInt.wrap (Z.of_nat (length (logs cr)) + 1).

(** The system messages of [Join] and [Leave]. *)
Definition join_notice (id : Z) (name : string) (t : Time) : Message.t :=
  {| Message.ID := id; Message.Sender := "System";
     Message.Content := "User " +:+ name +:+ " joined the chat";
     Message.Time := t |}.

Definition leave_notice (id : Z) (name : string) (t : Time) : Message.t :=
  {| Message.ID := id; Message.Sender := "System";
     Message.Content := "User " +:+ name +:+ " left the chat";
     Message.Time := t |}.

(** ** Polls *)

(** The messages a poll delivers: newer than the cursor and not sent under
    the caller's id, in the order of the log. *)
Definition delivered (args : UpdateArgs.t) (ms : list Message.t) : list Message.t :=
  filter (λ m, UpdateArgs.LastMsgID args < Message.ID m
               ∧ Message.Sender m ≠ UpdateArgs.ID args) ms.

(** The messages that were not sent under [id]. *)
Definition from_others (id : string) (ms : list Message.t) : list Message.t :=
  filter (λ m, Message.Sender m ≠ id) ms.

(** "The highest id among all messages with id greater than [last]" of a
    list of messages; [last] itself when there is none. *)
Definition highest_above (last : Z) (ms : list Message.t) : Z :=
  foldr Z.max last (Message.ID <$> filter (λ m, last < Message.ID m) ms).

(** ** Concrete clocks and rooms *)

(** A clock that reads 0 at every call site. *)
Definition clock0 : JoinClock := mkJoinClock (mkTime 0) (mkTime 0) (mkTime 0).

(** A clock whose reading in [assignName] is 5 modulo 9999. *)
Definition late_clock : JoinClock :=
  mkJoinClock (mkTime 1761849999999997979) (mkTime 1761849999999998000)
              (mkTime 1761849999999998100).

(** The room after [Join("A")] and [Send("A", "M")]. *)
Definition echo_room : ChatRoom :=
  run NewChatRoom
    [CallJoin (JoinArgs.mk "A") clock0;
     CallSend (SendArgs.mk "A" "M") (mkTime 0)].

(** The room after [Join("A")] and [Leave("A")]. *)
Definition left_room : ChatRoom :=
  run NewChatRoom
    [CallJoin (JoinArgs.mk "A") clock0; CallLeave (LeaveArgs.mk "A") (mkTime 0)].

(** A room of 101 clients: "Guest_5", then "Guest", "Guest1", ..., "Guest99". *)
Definition crowded_room : ChatRoom :=
  run NewChatRoom
    (CallJoin (JoinArgs.mk "Guest_5") clock0
     :: replicate 100 (CallJoin (JoinArgs.mk "") clock0)).

(** The room after [Join("A")] and [Join("B")]. *)
Definition pair_room : ChatRoom :=
  run NewChatRoom
    [CallJoin (JoinArgs.mk "A") clock0; CallJoin (JoinArgs.mk "B") clock0].

(** What happens around the receiver of "A" in [pair_room]: it polls, "B"
    sends "hello", "A" sends "hi", it polls again. *)
Definition pair_events : list Event :=
  [Tick;
   Served (CallSend (SendArgs.mk "B" "hello") (mkTime 0));
   Served (CallSend (SendArgs.mk "A" "hi") (mkTime 0));
   Tick].

(** The room after two [Join("A")]: the clients "A" and "A1". *)
Definition twin_room : ChatRoom :=
  run NewChatRoom
    [CallJoin (JoinArgs.mk "A") clock0; CallJoin (JoinArgs.mk "A") clock0].

(** ** Candidate names *)

(** The hundred names that [assignName] looks up for a base, in order. *)
Definition candidates (base : string) : list string :=
  base :: ((λ i, Sprintf_s_d base i) <$> seqZ 1 99).

(** ** Sessions *)

(** What holds of a receiver next to a reachable room: its cursor lies
    within the log, and the messages on its screen followed by those its
    next poll delivers are the messages of the log that were not sent under
    its name; once it has stopped, its screen is a prefix of them. *)
Definition session_inv (username : string) (s : Session) : Prop :=
  reachable (room s)
  ∧ match receiver s with
    | Polling l =>
        0 ≤ l ≤ Z.of_nat (length (logs (room s)))
        ∧ screen s ++ (decode <$> delivered (UpdateArgs.mk username l) (logs (room s)))
          = decode <$> from_others username (logs (room s))
    | Stopped =>
        screen s `prefix_of` (decode <$> from_others username (logs (room s)))
    end.

(** ** Cursors of the clients *)

(** Every client's [LastSeen] is the [int] of a position of the log, or of
    the position before the first. *)
Definition lastseen_in_log (cr : ChatRoom) : Prop :=
  ∀ k c, clients cr !! k = Some c →
         ∃ n : nat, (n ≤ length (logs cr))%nat
                    ∧ Client.LastSeen c = GoInt.wrap (Z.of_nat n).

(** * Properties *)

(** ** Integers *)

(** Bounds of [int] values and of slice lengths, by linear arithmetic. *)
Ltac int_bounds :=
  unfold slice_ok, GoInt.in_range, GoInt.min_int, GoInt.max_int in *; lia.

Lemma wrap_in_range (z : Z) : GoInt.in_range z → GoInt.wrap z = z.
Proof.
  unfold GoInt.in_range, GoInt.wrap, GoInt.min_int, GoInt.max_int. intros Hz.
  rewrite Z.mod_small; lia.
Qed.

Lemma wrap_succ (z : Z) : GoInt.add (GoInt.wrap z) 1 = GoInt.wrap (z + 1).
Proof.
  unfold GoInt.add, GoInt.wrap.
  replace ((z + 2 ^ 63) mod 2 ^ 64 - 2 ^ 63 + 1 + 2 ^ 63)
    with ((z + 2 ^ 63) mod 2 ^ 64 + 1) by lia.
  rewrite Zplus_mod_idemp_l. f_equal. f_equal. lia.
Qed.

(** ** The loop of [GetUpdates] *)

Lemma GetUpdates_loop_spec (args : UpdateArgs.t) (ms newList : list Message.t)
    (maxID : Z) :
  GetUpdates_loop args ms newList maxID =
    (newList ++ delivered args ms,
     default maxID (last (Message.ID <$> delivered args ms))).
Proof.
  revert newList maxID. induction ms as [|m ms IH]; intros newList maxID; simpl.
  - by rewrite app_nil_r.
  - unfold delivered. rewrite filter_cons. fold (delivered args ms).
    destruct (Z.gtb_spec (Message.ID m) (UpdateArgs.LastMsgID args)) as [Hgt|Hle].
    + destruct (decide (Message.Sender m = UpdateArgs.ID args)) as [Heq|Hne].
      * rewrite decide_False by tauto. apply IH.
      * rewrite decide_True by (split; [lia|done]).
        rewrite IH, <- app_assoc, fmap_cons, last_cons. simpl.
        by destruct (last (Message.ID <$> delivered args ms)).
    + rewrite decide_False by lia. apply IH.
Qed.

(** ** The log and its counter *)

Lemma step_log_change (cr : ChatRoom) (c : Call) : log_change cr (step cr c).
Proof.
  destruct c as [args clock|args now|args|args now]; unfold step, serve.
  - unfold Join; simpl. by eapply log_append.
  - unfold Send. destruct (clients cr !! SendArgs.ID args); simpl.
    + by eapply log_append.
    + by apply log_same.
  - unfold GetUpdates. destruct (clients cr !! UpdateArgs.ID args); simpl.
    + destruct (GetUpdates_loop _ _ _ _). by apply log_same.
    + by apply log_same.
  - unfold Leave. destruct (clients cr !! LeaveArgs.ID args); simpl.
    + by eapply log_append.
    + by apply log_same.
Qed.

Lemma log_numbered_new : log_numbered NewChatRoom.
Proof. split; [intros i m; simpl; by rewrite lookup_nil | done]. Qed.

Lemma log_numbered_change (cr cr' : ChatRoom) :
  log_change cr cr' → log_numbered cr → log_numbered cr'.
Proof.
  intros [Hl Hn|m Hl Hm Hn] [Hids Hnext].
  - split; [by rewrite Hl | by rewrite Hl, Hn].
  - split.
    + intros i m'. rewrite Hl. intros [Hi| [Hlen Hi]]%lookup_app_Some.
      * by apply Hids.
      * apply list_lookup_singleton_Some in Hi as [Hi ->].
        rewrite Hm, Hnext. f_equal. lia.
    + rewrite Hn, Hnext, Hl, wrap_succ, length_app. simpl. f_equal. lia.
Qed.

Lemma run_snoc (cr : ChatRoom) (cs : list Call) (c : Call) :
  run cr (cs ++ [c]) = step (run cr cs) c.
Proof. unfold run. by rewrite fold_left_app. Qed.

Lemma reachable_ind (P : ChatRoom → Prop) :
  P NewChatRoom → (∀ cr c, reachable cr → P cr → P (step cr c)) →
  ∀ cr, reachable cr → P cr.
Proof.
  intros Hnew Hstep cr [cs ->].
  induction cs as [|c cs IH] using rev_ind; [done|].
  rewrite run_snoc. apply Hstep; [by exists cs | done].
Qed.

Lemma reachable_numbered (cr : ChatRoom) : reachable cr → log_numbered cr.
Proof.
  apply reachable_ind; [apply log_numbered_new|].
  intros cr' c _. apply log_numbered_change, step_log_change.
Qed.

(** In a log that fits a slice the numbers have not wrapped. *)
Lemma numbered_lookup (cr : ChatRoom) (i : nat) (m : Message.t) :
  log_numbered cr → slice_ok (logs cr) →
  logs cr !! i = Some m → Message.ID m = Z.of_nat i + 1.
Proof.
  intros [Hids _] Hok Hi. rewrite (Hids _ _ Hi).
  apply lookup_lt_Some in Hi. apply wrap_in_range.
  int_bounds.
Qed.

Lemma numbered_ids (cr : ChatRoom) :
  log_numbered cr → slice_ok (logs cr) →
  Message.ID <$> logs cr = seqZ 1 (Z.of_nat (length (logs cr))).
Proof.
  intros Hnum Hok. apply list_eq. intros i.
  rewrite list_lookup_fmap.
  destruct (logs cr !! i) as [m|] eqn:Hi; simpl.
  - rewrite (numbered_lookup _ _ _ Hnum Hok Hi).
    apply lookup_lt_Some in Hi. rewrite lookup_seqZ_lt by lia. f_equal. lia.
  - apply lookup_ge_None in Hi. rewrite lookup_seqZ_ge by lia. done.
Qed.

Lemma seqZ_sorted (m n : Z) : StronglySorted Z.lt (seqZ m n).
Proof.
  destruct (Z_le_gt_dec n 0) as [Hn|Hn]; [rewrite seqZ_nil by done; constructor|].
  rewrite <- (Z2Nat.id n) by lia. generalize (Z.to_nat n) as k. clear.
  induction k as [|k IH]; [constructor|].
  rewrite seqZ_S. apply StronglySorted_app_2; [|done|repeat constructor].
  intros x y Hx Hy. apply elem_of_seqZ in Hx. apply list_elem_of_singleton in Hy. lia.
Qed.

Lemma reachable_sorted (cr : ChatRoom) :
  reachable cr → slice_ok (logs cr) →
  StronglySorted Z.lt (Message.ID <$> logs cr).
Proof.
  intros Hr Hok. rewrite numbered_ids by auto using reachable_numbered.
  apply seqZ_sorted.
Qed.

(** Two entries of the log with the same id are the same message. *)
Lemma reachable_id_inj (cr : ChatRoom) (m m' : Message.t) :
  reachable cr → slice_ok (logs cr) → m ∈ logs cr → m' ∈ logs cr →
  Message.ID m = Message.ID m' → m = m'.
Proof.
  intros Hr Hok [i Hi]%list_elem_of_lookup [j Hj]%list_elem_of_lookup Heq.
  pose proof (reachable_numbered _ Hr) as Hnum.
  rewrite (numbered_lookup _ _ _ Hnum Hok Hi) in Heq.
  rewrite (numbered_lookup _ _ _ Hnum Hok Hj) in Heq.
  assert (i = j) as -> by lia. congruence.
Qed.

(** ** Lists of ids *)

Lemma sorted_filter {A : Type} (f : A → Z) (P : A → Prop)
    `{!∀ x, Decision (P x)} (l : list A) :
  StronglySorted Z.lt (f <$> l) → StronglySorted Z.lt (f <$> filter P l).
Proof.
  induction l as [|x l IH]; [done|].
  rewrite fmap_cons, StronglySorted_cons. intros [Hx Hl].
  rewrite filter_cons. destruct (decide (P x)); [|by apply IH].
  rewrite fmap_cons, StronglySorted_cons. split; [|by apply IH].
  rewrite Forall_forall in Hx |- *. intros y [z [-> Hz]]%list_elem_of_fmap.
  apply Hx, list_elem_of_fmap. exists z. split; [done|].
  by apply list_elem_of_filter in Hz as [_ Hz].
Qed.

Lemma foldr_max_ge (d x : Z) (l : list Z) : x ∈ l → x ≤ foldr Z.max d l.
Proof.
  induction l as [|y l IH]; [by intros ?%elem_of_nil|].
  intros [->|Hx]%elem_of_cons; simpl; [lia|]. specialize (IH Hx). lia.
Qed.

Lemma foldr_max_le (d : Z) (l : list Z) : d ≤ foldr Z.max d l.
Proof. induction l as [|y l IH]; simpl; lia. Qed.

(** The greatest element of an ascending list is its last one. *)
Lemma foldr_max_sorted (d : Z) (l : list Z) :
  StronglySorted Z.lt l → Forall (λ x, d < x) l →
  foldr Z.max d l = default d (last l).
Proof.
  induction l as [|x l IH]; [done|].
  rewrite StronglySorted_cons, Forall_cons. intros [Hx Hl] [Hdx Hd].
  simpl foldr. rewrite IH by done. rewrite last_cons.
  destruct (last l) as [y|] eqn:Hy; simpl; [|lia].
  apply last_Some_elem_of in Hy. rewrite Forall_forall in Hx.
  specialize (Hx _ Hy). lia.
Qed.

(** ** GetUpdates *)

Lemma GetUpdates_registered (cr : ChatRoom) (args : UpdateArgs.t)
    (reply : UpdateReply.t) :
  is_Some (clients cr !! UpdateArgs.ID args) →
  GetUpdates cr args reply =
    (cr,
     {| UpdateReply.Messages := delivered args (logs cr);
        UpdateReply.NewMsgID :=
          default (UpdateArgs.LastMsgID args)
                  (last (Message.ID <$> delivered args (logs cr))) |},
     None).
Proof.
  intros [c Hc]. unfold GetUpdates. rewrite Hc, GetUpdates_loop_spec. done.
Qed.

Lemma GetUpdates_unknown (cr : ChatRoom) (args : UpdateArgs.t)
    (reply : UpdateReply.t) :
  clients cr !! UpdateArgs.ID args = None →
  GetUpdates cr args reply = (cr, reply, Some UnknownClient).
Proof. intros Hc. unfold GetUpdates. by rewrite Hc. Qed.

Lemma delivered_elem (args : UpdateArgs.t) (ms : list Message.t) (m : Message.t) :
  m ∈ delivered args ms ↔
  m ∈ ms ∧ UpdateArgs.LastMsgID args < Message.ID m
  ∧ Message.Sender m ≠ UpdateArgs.ID args.
Proof. unfold delivered. rewrite list_elem_of_filter. tauto. Qed.

Lemma delivered_from_others (args : UpdateArgs.t) (ms : list Message.t) :
  filter (λ m, UpdateArgs.LastMsgID args < Message.ID m)
         (from_others (UpdateArgs.ID args) ms) = delivered args ms.
Proof. unfold from_others, delivered. by rewrite list_filter_filter. Qed.

Lemma delivered_sorted (cr : ChatRoom) (args : UpdateArgs.t) :
  reachable cr → slice_ok (logs cr) →
  StronglySorted Z.lt (Message.ID <$> delivered args (logs cr)).
Proof. intros Hr Hok. by apply sorted_filter, reachable_sorted. Qed.

(** In a reachable room the last delivered id is the highest one. *)
Lemma delivered_highest (cr : ChatRoom) (args : UpdateArgs.t) :
  reachable cr → slice_ok (logs cr) →
  default (UpdateArgs.LastMsgID args)
          (last (Message.ID <$> delivered args (logs cr)))
  = highest_above (UpdateArgs.LastMsgID args)
                  (from_others (UpdateArgs.ID args) (logs cr)).
Proof.
  intros Hr Hok. unfold highest_above. rewrite delivered_from_others.
  symmetry. apply foldr_max_sorted; [by apply delivered_sorted|].
  rewrite Forall_forall. intros x [m [-> Hm]]%list_elem_of_fmap.
  by apply delivered_elem in Hm as (_ & Hlt & _).
Qed.

(** C3.  A poll by a registered client returns exactly the messages of the
    log that are newer than the cursor and were not sent under the caller's
    id, in the order of the log; a message sent under the caller's id is
    never among them, whatever the log and the cursor; and in a room reached
    from a new one the order of the log is the ascending order of ids. *)
Theorem GetUpdates_messages (cr : ChatRoom) (args : UpdateArgs.t)
    (reply : UpdateReply.t) :
  is_Some (clients cr !! UpdateArgs.ID args) →
  ∃ r, GetUpdates cr args reply = (cr, r, None)
    ∧ UpdateReply.Messages r =
        filter (λ m, UpdateArgs.LastMsgID args < Message.ID m
                     ∧ Message.Sender m ≠ UpdateArgs.ID args) (logs cr)
    ∧ (∀ m, m ∈ UpdateReply.Messages r ↔
            m ∈ logs cr ∧ UpdateArgs.LastMsgID args < Message.ID m
            ∧ Message.Sender m ≠ UpdateArgs.ID args)
    ∧ (∀ m, Message.Sender m = UpdateArgs.ID args → m ∉ UpdateReply.Messages r)
    ∧ (reachable cr → slice_ok (logs cr) →
       StronglySorted Z.lt (Message.ID <$> UpdateReply.Messages r)).
Proof.
  intros Hreg. eexists. split; [by apply GetUpdates_registered|]. simpl.
  split; [done|]. split; [apply delivered_elem|]. split.
  - intros m Hm (_ & _ & Hne)%delivered_elem. done.
  - apply delivered_sorted.
Qed.

(** C10.  A poll that succeeds returns a watermark that is not below the
    cursor it was given, and when it returns messages the watermark is the
    id of the last of them. *)
Theorem GetUpdates_watermark_last (cr cr' : ChatRoom) (args : UpdateArgs.t)
    (reply r : UpdateReply.t) :
  GetUpdates cr args reply = (cr', r, None) →
  UpdateArgs.LastMsgID args ≤ UpdateReply.NewMsgID r
  ∧ (UpdateReply.Messages r ≠ [] →
     ∃ m, last (UpdateReply.Messages r) = Some m
          ∧ UpdateReply.NewMsgID r = Message.ID m)
  ∧ (UpdateReply.Messages r = [] →
     UpdateReply.NewMsgID r = UpdateArgs.LastMsgID args).
Proof.
  destruct (clients cr !! UpdateArgs.ID args) as [c|] eqn:Hc.
  - rewrite GetUpdates_registered by eauto. intros [= <- <-]. simpl.
    rewrite fmap_last.
    destruct (last (delivered args (logs cr))) as [m|] eqn:Hm; simpl.
    + pose proof (last_Some_elem_of _ _ Hm) as (_ & Hlt & _)%delivered_elem.
      split; [lia|]. split; [by exists m|].
      intros Hnil. by rewrite Hnil in Hm.
    + split; [lia|]. split; [|done].
      intros Hne. apply last_None in Hm. done.
  - rewrite GetUpdates_unknown by done. intros [=].
Qed.

(** C1, as stated, fails.  After [Join("A")] and [Send("A", "M")] the log
    holds the join notice (id 1) and M (id 2, sender "A").  The highest id
    above 0 in the log is 2, but the poll of "A" with cursor 0 returns the
    join notice only and the watermark 1, which is below the id of M. *)
Lemma watermark_skips_own_message :
  is_Some (clients echo_room !! "A")
  ∧ logs echo_room !! 1%nat = Some (Message.mk 2 "A" "M" (mkTime 0))
  ∧ highest_above 0 (logs echo_room) = 2
  ∧ ∃ r, GetUpdates echo_room (UpdateArgs.mk "A" 0) UpdateReply.zero
         = (echo_room, r, None)
      ∧ UpdateReply.NewMsgID r = 1
      ∧ UpdateReply.NewMsgID r ≠ highest_above 0 (logs echo_room)
      ∧ ¬ (2 ≤ UpdateReply.NewMsgID r).
Proof.
  split; [by eexists|]. split; [done|]. split; [done|].
  eexists. split; [reflexivity|]. split; [reflexivity|].
  split; [vm_compute; discriminate | vm_compute; intros H; by apply H].
Qed.

(** C1, amended.  In a room reached from a new one, a poll by a registered
    client returns as watermark the highest id among the messages of the
    log with id above the cursor that were not sent under the caller's id
    (the cursor itself when there is none): a message that the no-echo
    filter excludes does not advance it.  A message M sent under the
    caller's id and newer than the cursor is not returned, and the watermark
    reaches M's id exactly when the log holds a message of another sender
    with an id above M's. *)
Theorem GetUpdates_watermark (cr : ChatRoom) (args : UpdateArgs.t)
    (reply : UpdateReply.t) :
  reachable cr → slice_ok (logs cr) →
  is_Some (clients cr !! UpdateArgs.ID args) →
  ∃ r, GetUpdates cr args reply = (cr, r, None)
    ∧ UpdateReply.NewMsgID r =
        highest_above (UpdateArgs.LastMsgID args)
                      (from_others (UpdateArgs.ID args) (logs cr))
    ∧ (∀ M, M ∈ logs cr → Message.Sender M = UpdateArgs.ID args →
            UpdateArgs.LastMsgID args < Message.ID M →
            (M ∉ UpdateReply.Messages r)
            ∧ (Message.ID M ≤ UpdateReply.NewMsgID r ↔
               ∃ m, m ∈ logs cr ∧ Message.Sender m ≠ UpdateArgs.ID args
                    ∧ Message.ID M < Message.ID m)).
Proof.
  intros Hr Hok Hreg. eexists. split; [by apply GetUpdates_registered|]. simpl.
  split; [by apply delivered_highest|].
  intros M HM Hsender Hnew. split.
  { intros (_ & _ & Hne)%delivered_elem. done. }
  rewrite fmap_last. split.
  - destruct (last (delivered args (logs cr))) as [m|] eqn:Hm; simpl; [|intros; lia].
    intros Hle. apply last_Some_elem_of, delivered_elem in Hm as (Hin & _ & Hne).
    exists m. split; [done|]. split; [done|].
    assert (Message.ID M ≠ Message.ID m); [|lia].
    intros Heq. apply Hne. rewrite <- Hsender. f_equal. symmetry.
    by eapply reachable_id_inj.
  - intros (m & Hin & Hne & Hlt).
    rewrite <- fmap_last, delivered_highest by done.
    unfold highest_above. rewrite delivered_from_others.
    etrans; [|apply foldr_max_ge]; [apply Z.lt_le_incl, Hlt|].
    apply list_elem_of_fmap. exists m. split; [done|].
    apply delivered_elem. split; [done|]. split; [lia|done].
Qed.

(** ** The log is numbered 1, 2, 3, ... *)

(** C2.  After any sequence of calls served from a new room, the ids of the
    log are 1, 2, 3, ... in the order of appending: the counter starts at 1,
    a call appends nothing or one message that takes the value of the
    counter and advances it by one, the message at position [i] (from 0)
    has id [i + 1], consecutive messages differ by exactly 1, no id occurs
    twice and the order of the log is the ascending order of ids.  The log
    is a Go slice, so its length is an [int] ([slice_ok]): the counter has
    not wrapped around on any message that a slice can hold. *)
Theorem log_ids_consecutive (cs : list Call) (cr : ChatRoom) :
  cr = run NewChatRoom cs → slice_ok (logs cr) →
  nextID NewChatRoom = 1
  ∧ (∀ c, log_change cr (step cr c))
  ∧ Message.ID <$> logs cr = seqZ 1 (Z.of_nat (length (logs cr)))
  ∧ (∀ i m, logs cr !! i = Some m → Message.ID m = Z.of_nat i + 1)
  ∧ (∀ i m m', logs cr !! i = Some m → logs cr !! S i = Some m' →
               Message.ID m' = Message.ID m + 1)
  ∧ NoDup (Message.ID <$> logs cr)
  ∧ StronglySorted Z.lt (Message.ID <$> logs cr)
  ∧ nextID cr = GoInt.wrap (Z.of_nat (length (logs cr)) + 1)
  ∧ (Z.of_nat (length (logs cr)) < GoInt.max_int →
     nextID cr = Z.of_nat (length (logs cr)) + 1).
Proof.
  intros Hcr Hok.
  assert (reachable cr) as Hr by (by exists cs).
  pose proof (reachable_numbered _ Hr) as Hnum.
  split; [done|]. split; [apply step_log_change|].
  split; [by apply numbered_ids|].
  split; [intros i m; by apply numbered_lookup|].
  split.
  { intros i m m' Hi HSi.
    rewrite (numbered_lookup _ _ _ Hnum Hok Hi), (numbered_lookup _ _ _ Hnum Hok HSi).
    lia. }
  split; [rewrite numbered_ids by done; apply NoDup_seqZ|].
  split; [by apply reachable_sorted|].
  destruct Hnum as [_ Hnext]. split; [done|].
  intros Hlt. rewrite Hnext. apply wrap_in_range.
  int_bounds.
Qed.

(** ** Send *)

(** In a reachable room whose log can still grow, the counter is above
    every id of the log. *)
Lemma reachable_counter_fresh (cr : ChatRoom) (m' : Message.t) :
  reachable cr → slice_ok (logs cr ++ [m']) →
  ∀ m, m ∈ logs cr → Message.ID m < nextID cr.
Proof.
  intros Hr Hok m [i Hi]%list_elem_of_lookup.
  pose proof (reachable_numbered _ Hr) as Hnum.
  unfold slice_ok in Hok. rewrite length_app in Hok. simpl in Hok.
  assert (slice_ok (logs cr)) as Hok' by (unfold slice_ok; lia).
  rewrite (numbered_lookup _ _ _ Hnum Hok' Hi).
  destruct Hnum as [_ ->]. apply lookup_lt_Some in Hi.
  rewrite wrap_in_range; [lia|].
  int_bounds.
Qed.

(** C5.  [Send] under an id that is not a key of the registry fails with
    the not-registered error and returns the room (registry with every
    client's [LastSeen], log, counter) and the reply as they were.  Under an
    id that is a key it succeeds whatever the content, the empty string
    included: it appends the one message (counter, id, content, clock) to
    the log, advances the counter by one, stores the message id in the
    [LastSeen] of that client and leaves every other client alone; in a
    reachable room the id of the message is above every id of the log. *)
Theorem Send_effect (cr : ChatRoom) (args : SendArgs.t) (reply : SendReply.t)
    (now : Time) :
  (clients cr !! SendArgs.ID args = None →
   Send cr args reply now = (cr, reply, Some NotRegistered))
  ∧ (∀ cl, clients cr !! SendArgs.ID args = Some cl →
     let msg := {| Message.ID := nextID cr;
                   Message.Sender := SendArgs.ID args;
                   Message.Content := SendArgs.Message args;
                   Message.Time := now |} in
     ∃ cr', Send cr args reply now = (cr', {| SendReply.Success := true |}, None)
       ∧ logs cr' = logs cr ++ [msg]
       ∧ nextID cr' = GoInt.add (nextID cr) 1
       ∧ clients cr' !! SendArgs.ID args =
           Some {| Client.ID := Client.ID cl;
                   Client.LastSeen := nextID cr;
                   Client.JoinedAt := Client.JoinedAt cl;
                   Client.Original := Client.Original cl |}
       ∧ (∀ k, k ≠ SendArgs.ID args → clients cr' !! k = clients cr !! k)
       ∧ dom (clients cr') = dom (clients cr)
       ∧ nameUsage cr' = nameUsage cr
       ∧ (reachable cr → slice_ok (logs cr') →
          ∀ m, m ∈ logs cr → Message.ID m < Message.ID msg)).
Proof.
  split.
  - intros Hc. unfold Send. by rewrite Hc.
  - intros cl Hc msg. unfold Send. rewrite Hc. eexists. split; [done|]. simpl.
    split; [done|]. split; [done|].
    split; [by rewrite lookup_insert_eq|].
    split; [intros k Hk; by rewrite lookup_insert_ne|].
    split; [by apply dom_insert_lookup_L|].
    split; [done|].
    intros Hr Hok. by apply (reachable_counter_fresh cr msg).
Qed.

(** ** The registry *)

Lemma Join_keyed (cr : ChatRoom) (args : JoinArgs.t) (reply : JoinReply.t)
    (clock : JoinClock) :
  registry_keyed cr → registry_keyed (Join cr args reply clock).1.1.
Proof.
  intros Hk k c. unfold Join. simpl.
  destruct (decide (assignName cr (JoinArgs.RequestedName args) (at_assign clock) = k))
    as [<-|Hne].
  - rewrite lookup_insert_eq. by intros [= <-].
  - rewrite lookup_insert_ne by done. apply Hk.
Qed.

Lemma Send_keyed (cr : ChatRoom) (args : SendArgs.t) (reply : SendReply.t)
    (now : Time) :
  registry_keyed cr → registry_keyed (Send cr args reply now).1.1.
Proof.
  intros Hk. unfold Send.
  destruct (clients cr !! SendArgs.ID args) as [cl|] eqn:Hcl; [|done].
  intros k c. simpl. destruct (decide (SendArgs.ID args = k)) as [<-|Hne].
  - rewrite lookup_insert_eq. intros [= <-]. simpl. by apply Hk.
  - rewrite lookup_insert_ne by done. apply Hk.
Qed.

Lemma GetUpdates_same_room (cr : ChatRoom) (args : UpdateArgs.t)
    (reply : UpdateReply.t) :
  (GetUpdates cr args reply).1.1 = cr.
Proof.
  unfold GetUpdates. destruct (clients cr !! UpdateArgs.ID args); [|done].
  by destruct (GetUpdates_loop _ _ _ _).
Qed.

Lemma Leave_keyed (cr : ChatRoom) (args : LeaveArgs.t) (reply : JoinReply.t)
    (now : Time) :
  registry_keyed cr → registry_keyed (Leave cr args reply now).1.1.
Proof.
  intros Hk. unfold Leave.
  destruct (clients cr !! LeaveArgs.ID args) as [cl|] eqn:Hcl; [|done].
  intros k c. simpl. intros [_ Hc]%lookup_delete_Some. by apply Hk.
Qed.

Lemma step_keyed (cr : ChatRoom) (c : Call) :
  registry_keyed cr → registry_keyed (step cr c).
Proof.
  intros Hk. destruct c as [args clock|args now|args|args now]; unfold step, serve.
  - pose proof (Join_keyed cr args JoinReply.zero clock Hk) as H.
    by destruct (Join _ _ _ _) as [[??]?].
  - pose proof (Send_keyed cr args SendReply.zero now Hk) as H.
    by destruct (Send _ _ _ _) as [[??]?].
  - pose proof (GetUpdates_same_room cr args UpdateReply.zero) as H.
    destruct (GetUpdates _ _ _) as [[??]?]. simpl in *. by subst.
  - pose proof (Leave_keyed cr args JoinReply.zero now Hk) as H.
    by destruct (Leave _ _ _ _) as [[??]?].
Qed.

(** C9.  In a new room every client is stored under its own id, each of
    the four handlers keeps it so, and therefore in every room reached from
    a new one the client found under a name has that name as its [ID]. *)
Theorem registry_keyed_invariant :
  registry_keyed NewChatRoom
  ∧ (∀ cr args reply clock,
       registry_keyed cr → registry_keyed (Join cr args reply clock).1.1)
  ∧ (∀ cr args reply now,
       registry_keyed cr → registry_keyed (Send cr args reply now).1.1)
  ∧ (∀ cr args reply,
       registry_keyed cr → registry_keyed (GetUpdates cr args reply).1.1)
  ∧ (∀ cr args reply now,
       registry_keyed cr → registry_keyed (Leave cr args reply now).1.1)
  ∧ (∀ cr name c,
       reachable cr → clients cr !! name = Some c → Client.ID c = name).
Proof.
  split; [intros k c; simpl; by rewrite lookup_empty|].
  split; [apply Join_keyed|]. split; [apply Send_keyed|].
  split; [intros cr args reply Hk; by rewrite GetUpdates_same_room|].
  split; [apply Leave_keyed|].
  intros cr name c Hr. revert name c. change (registry_keyed cr). revert cr Hr.
  apply reachable_ind.
  - intros k c; simpl; by rewrite lookup_empty.
  - intros cr c _. apply step_keyed.
Qed.

(** ** Name allocation *)

(** The loop returns the first candidate that is not a key. *)
Lemma assignName_loop_first (cr : ChatRoom) (base : string) (todo : nat) (i k : Z) :
  i ≤ k < i + Z.of_nat todo →
  (∀ j, i ≤ j < k → is_Some (clients cr !! Sprintf_s_d base j)) →
  clients cr !! Sprintf_s_d base k = None →
  assignName_loop cr base todo i = Some (Sprintf_s_d base k).
Proof.
  revert i. induction todo as [|todo IH]; intros i Hk Htaken Hfree; [lia|].
  simpl. destruct (decide (i = k)) as [->|Hne].
  - by rewrite Hfree.
  - destruct (Htaken i) as [c ->]; [lia|].
    apply IH; [lia| |done]. intros j Hj. apply Htaken. lia.
Qed.

(** The loop reads the registry only. *)
Lemma assignName_loop_registry (cr cr' : ChatRoom) (base : string) (todo : nat) (i : Z) :
  clients cr' = clients cr →
  assignName_loop cr' base todo i = assignName_loop cr base todo i.
Proof.
  intros Heq. revert i. induction todo as [|todo IH]; intros i; [done|].
  simpl. rewrite Heq. destruct (clients cr !! Sprintf_s_d base i); [apply IH|done].
Qed.

Lemma assignName_loop_None (cr : ChatRoom) (base : string) (todo : nat) (i k : Z) :
  assignName_loop cr base todo i = None →
  i ≤ k < i + Z.of_nat todo → is_Some (clients cr !! Sprintf_s_d base k).
Proof.
  revert i. induction todo as [|todo IH]; intros i Hloop Hk; [lia|].
  simpl in Hloop.
  destruct (clients cr !! Sprintf_s_d base i) as [c|] eqn:Hi; [|done].
  destruct (decide (i = k)) as [<-|Hne]; [by eexists|].
  apply (IH (i + 1)); [done|lia].
Qed.

(** When every candidate of the loop is a key, the loop falls through. *)
Lemma assignName_loop_taken (cr : ChatRoom) (base : string) (todo : nat) (i : Z) :
  (∀ j, i ≤ j < i + Z.of_nat todo → is_Some (clients cr !! Sprintf_s_d base j)) →
  assignName_loop cr base todo i = None.
Proof.
  revert i. induction todo as [|todo IH]; intros i Htaken; [done|]. simpl.
  destruct (Htaken i) as [c ->]; [lia|].
  apply IH. intros j Hj. apply Htaken. lia.
Qed.

(** C7, as stated, fails.  The assigned name is not a function of the
    registry alone.  In [crowded_room], reached from a new room by 101
    joins, "Guest" and "Guest1", ..., "Guest99" are all keys, so there is
    no absent candidate to return; for the empty request, one and the same
    room gives "Guest_5" when the clock reads 5 modulo 9999 and "Guest_6"
    one nanosecond later. *)
Lemma assignName_reads_clock :
  reachable crowded_room
  ∧ is_Some (clients crowded_room !! "Guest")
  ∧ assignName_loop crowded_room "Guest" 99 1 = None
  ∧ assignName crowded_room "" (mkTime 1761849999999997979) = "Guest_5"
  ∧ assignName crowded_room "" (mkTime 1761849999999997980) = "Guest_6"
  ∧ assignName crowded_room "" (mkTime 1761849999999997979)
    ≠ assignName crowded_room "" (mkTime 1761849999999997980).
Proof.
  split; [unfold crowded_room; eexists; reflexivity|].
  split; [vm_compute; eexists; reflexivity|].
  split; [vm_compute; reflexivity|]. split; [vm_compute; reflexivity|].
  split; [vm_compute; reflexivity|].
  vm_compute. discriminate.
Qed.

(** C7, amended.  The assigned name is a function of the registry as long
    as the base or one of base1, ..., base99 is not a key: the base is
    "Guest" for the empty request and the request otherwise; a base that is
    not a key is returned as it is; otherwise the first of base1, ...,
    base99 (in increasing order) that is not a key is returned; the clock
    and the rest of the room play no part.  From a new room three joins as
    "Alice" are assigned "Alice", "Alice1" and "Alice2".  When the base and
    all of base1, ..., base99 are keys, the name is the base followed by
    "_" and the clock reading modulo 9999, and two readings that differ
    modulo 9999 give two names. *)
Theorem assignName_rules (cr : ChatRoom) (requested : string) (now : Time) :
  base_name "" = "Guest"
  ∧ (requested ≠ "" → base_name requested = requested)
  ∧ (clients cr !! base_name requested = None →
     assignName cr requested now = base_name requested)
  ∧ (∀ i, is_Some (clients cr !! base_name requested) →
          1 ≤ i ≤ 99 →
          (∀ j, 1 ≤ j < i →
                is_Some (clients cr !! (base_name requested +:+ pretty j))) →
          clients cr !! (base_name requested +:+ pretty i) = None →
          assignName cr requested now = base_name requested +:+ pretty i)
  ∧ (∀ cr' now',
       clients cr' = clients cr →
       (clients cr !! base_name requested = None
        ∨ ∃ i, 1 ≤ i ≤ 99
               ∧ clients cr !! (base_name requested +:+ pretty i) = None) →
       assignName cr' requested now' = assignName cr requested now)
  ∧ (∀ k1 k2 k3,
       assigned_names NewChatRoom
         [(JoinArgs.mk "Alice", k1); (JoinArgs.mk "Alice", k2);
          (JoinArgs.mk "Alice", k3)]
       = ["Alice"; "Alice1"; "Alice2"])
  ∧ (is_Some (clients cr !! base_name requested) →
     (∀ i, 1 ≤ i ≤ 99 →
           is_Some (clients cr !! (base_name requested +:+ pretty i))) →
     assignName cr requested now
     = base_name requested +:+ "_" +:+ pretty (Z.rem (UnixNano now) 9999)
     ∧ (∀ now', Z.rem (UnixNano now) 9999 ≠ Z.rem (UnixNano now') 9999 →
                assignName cr requested now ≠ assignName cr requested now')).
Proof.
  split; [done|].
  split; [intros Hne; unfold base_name; by rewrite decide_False|].
  split.
  { intros Hfree. unfold assignName. fold (base_name requested). by rewrite Hfree. }
  split.
  { intros i [c Hc] Hi Htaken Hfree. unfold assignName.
    fold (base_name requested). rewrite Hc.
    rewrite (assignName_loop_first cr (base_name requested) 99 1 i); [done|lia|..];
      done. }
  split.
  { intros cr' now' Heq Hsome. unfold assignName. fold (base_name requested).
    rewrite Heq, (assignName_loop_registry cr cr') by done.
    destruct (clients cr !! base_name requested) as [c|] eqn:Hc; [|done].
    destruct (assignName_loop cr (base_name requested) 99 1) as [n|] eqn:Hloop;
      [done|].
    destruct Hsome as [?|(i & Hi & Hfree)]; [done|].
    destruct (assignName_loop_None _ _ _ _ i Hloop) as [c' Hc']; [lia|].
    unfold Sprintf_s_d in Hc'. congruence. }
  split; [done|].
  intros [c Hc] Htaken.
  assert (∀ t, assignName cr requested t
               = base_name requested +:+ "_" +:+ pretty (Z.rem (UnixNano t) 9999))
    as Hname.
  { intros t. unfold assignName. fold (base_name requested). rewrite Hc.
    rewrite assignName_loop_taken; [done|].
    intros j Hj. apply Htaken. lia. }
  split; [apply Hname|].
  intros now' Hrem. rewrite !Hname. intros Heq.
  apply (inj (String.append (base_name requested))) in Heq.
  apply (inj (String.append "_")) in Heq.
  by apply (inj pretty) in Heq.
Qed.

(** ** The scenario of two guests *)

(** C8, as stated, fails.  With every clock reading at 0: [Join("")] is
    assigned "Guest" and [Join("Guest")] is assigned "Guest1", but the two
    joins take the ids 1 and 2, so the "hi" of "Guest" gets id 3, not 2; the
    join notice of Guest1 is sent by "System", not by "Guest1", so the poll
    of "Guest1" with cursor 0 returns it too, and the watermark is 3. *)
Lemma two_guests_counterexample :
  ∃ cr1 cr2 cr3 r,
    Join NewChatRoom (JoinArgs.mk "") JoinReply.zero clock0
      = (cr1, JoinReply.mk true "Guest" "Welcome! You are now Guest", None)
    ∧ Join cr1 (JoinArgs.mk "Guest") JoinReply.zero clock0
      = (cr2, JoinReply.mk true "Guest1" "Welcome! You are now Guest1", None)
    ∧ Send cr2 (SendArgs.mk "Guest" "hi") SendReply.zero (mkTime 0)
      = (cr3, SendReply.mk true, None)
    ∧ last (logs cr3) = Some (Message.mk 3 "Guest" "hi" (mkTime 0))
    ∧ GetUpdates cr3 (UpdateArgs.mk "Guest1" 0) UpdateReply.zero = (cr3, r, None)
    ∧ UpdateReply.Messages r !! 1%nat = Some (join_notice 2 "Guest1" (mkTime 0))
    ∧ UpdateReply.NewMsgID r = 3
    ∧ UpdateReply.NewMsgID r ≠ 2.
Proof.
  do 4 eexists. split; [reflexivity|]. split; [reflexivity|].
  split; [reflexivity|]. split; [reflexivity|]. split; [reflexivity|].
  split; [reflexivity|]. split; [reflexivity|]. vm_compute. discriminate.
Qed.

(** C8, amended.  From a new room and for all clock readings: [Join("")] is
    assigned "Guest"; [Join("Guest")] is assigned "Guest1"; the two joins
    produce the ids 1 and 2, and the "hi" that "Guest" then sends gets id 3;
    the poll of "Guest1" with cursor 0 returns the join notice of Guest, the
    join notice of Guest1 (its sender is "System") and the "hi", with
    watermark 3. *)
Theorem two_guests (k1 k2 : JoinClock) (t : Time) :
  ∃ cr1 cr2 cr3,
    Join NewChatRoom (JoinArgs.mk "") JoinReply.zero k1
      = (cr1, JoinReply.mk true "Guest" "Welcome! You are now Guest", None)
    ∧ Join cr1 (JoinArgs.mk "Guest") JoinReply.zero k2
      = (cr2, JoinReply.mk true "Guest1" "Welcome! You are now Guest1", None)
    ∧ Send cr2 (SendArgs.mk "Guest" "hi") SendReply.zero t
      = (cr3, SendReply.mk true, None)
    ∧ logs cr3 = [join_notice 1 "Guest" (at_notice k1);
                  join_notice 2 "Guest1" (at_notice k2);
                  Message.mk 3 "Guest" "hi" t]
    ∧ GetUpdates cr3 (UpdateArgs.mk "Guest1" 0) UpdateReply.zero
      = (cr3,
         {| UpdateReply.Messages :=
              [join_notice 1 "Guest" (at_notice k1);
               join_notice 2 "Guest1" (at_notice k2);
               Message.mk 3 "Guest" "hi" t];
            UpdateReply.NewMsgID := 3 |},
         None).
Proof. do 3 eexists. repeat split; reflexivity. Qed.

(** ** Join *)

(** What [Join] returns, for every room, request, reply object and clock. *)
Lemma Join_effect (cr : ChatRoom) (args : JoinArgs.t) (reply : JoinReply.t)
    (clock : JoinClock) :
  let chosen := assignName cr (JoinArgs.RequestedName args) (at_assign clock) in
  ∃ cr', Join cr args reply clock
         = (cr', JoinReply.mk true chosen ("Welcome! You are now " +:+ chosen), None)
    ∧ logs cr' = logs cr ++ [join_notice (nextID cr) chosen (at_notice clock)]
    ∧ length (logs cr') = S (length (logs cr))
    ∧ nextID cr' = GoInt.add (nextID cr) 1
    ∧ clients cr' !! chosen =
        Some (Client.mk chosen (GoInt.sub (nextID cr) 1) (at_joined clock)
                        (JoinArgs.RequestedName args))
    ∧ (∀ k, k ≠ chosen → clients cr' !! k = clients cr !! k)
    ∧ (clients cr !! chosen = None → size (clients cr') = S (size (clients cr)))
    ∧ (is_Some (clients cr !! chosen) → size (clients cr') = size (clients cr)).
Proof.
  intros chosen. eexists. split; [reflexivity|]. simpl. fold chosen.
  split; [done|]. split; [rewrite length_app; simpl; lia|]. split; [done|].
  split; [by rewrite lookup_insert_eq|].
  split; [intros k Hk; by rewrite lookup_insert_ne|].
  split.
  - intros Hfree. by apply map_size_insert_None.
  - intros Htaken. by apply map_size_insert_Some.
Qed.

(** The assigned name is free as long as one of the hundred candidates is. *)
Lemma assignName_free (cr : ChatRoom) (requested : string) (now : Time) :
  (clients cr !! base_name requested = None
   ∨ ∃ i, 1 ≤ i ≤ 99 ∧ clients cr !! (base_name requested +:+ pretty i) = None) →
  clients cr !! assignName cr requested now = None.
Proof.
  intros Hsome. unfold assignName. fold (base_name requested).
  destruct (clients cr !! base_name requested) as [c|] eqn:Hc; [|done].
  destruct (assignName_loop cr (base_name requested) 99 1) as [n|] eqn:Hloop.
  - clear Hsome. revert Hloop. generalize 1. generalize 99%nat.
    intros todo. induction todo as [|todo IH]; intros i; [done|]. simpl.
    destruct (clients cr !! Sprintf_s_d (base_name requested) i) eqn:Hi;
      [apply IH|by intros [= <-]].
  - destruct Hsome as [?|(i & Hi & Hfree)]; [done|].
    destruct (assignName_loop_None _ _ _ _ i Hloop) as [c' Hc']; [lia|].
    unfold Sprintf_s_d in Hc'. congruence.
Qed.

(** C6 fails on the code where [assignName] falls back on the clock: the
    name it builds is not looked up in the registry.  In [crowded_room]
    every candidate "Guest", "Guest1", ..., "Guest99" is taken;
    [Join("")] at a time that is 5 modulo 9999 is assigned "Guest_5", the
    id of a client of the room, whose entry it overwrites: the call reports
    success, the log grows by one, the registry keeps its 101 clients. *)
Theorem Join_fallback_overwrites :
  size (clients crowded_room) = 101%nat
  ∧ length (logs crowded_room) = 101%nat
  ∧ clients crowded_room !! "Guest_5"
    = Some (Client.mk "Guest_5" 0 (mkTime 0) "Guest_5")
  ∧ (Join crowded_room (JoinArgs.mk "") JoinReply.zero late_clock).1.2
    = JoinReply.mk true "Guest_5" "Welcome! You are now Guest_5"
  ∧ size (clients (Join crowded_room (JoinArgs.mk "") JoinReply.zero late_clock).1.1)
    = 101%nat
  ∧ length (logs (Join crowded_room (JoinArgs.mk "") JoinReply.zero late_clock).1.1)
    = 102%nat
  ∧ clients (Join crowded_room (JoinArgs.mk "") JoinReply.zero late_clock).1.1
      !! "Guest_5"
    = Some (Client.mk "Guest_5" 101 (mkTime 1761849999999998000) "").
Proof. repeat split; vm_compute; reflexivity. Qed.

(** ** Leave *)

(** [Leave] under an id that is not a key returns [nil] and touches neither
    the room nor the reply object. *)
Lemma Leave_absent (cr : ChatRoom) (args : LeaveArgs.t) (reply : JoinReply.t)
    (now : Time) :
  clients cr !! LeaveArgs.ID args = None →
  Leave cr args reply now = (cr, reply, None).
Proof. intros Hc. unfold Leave. by rewrite Hc. Qed.

Lemma Leave_present (cr : ChatRoom) (args : LeaveArgs.t) (reply : JoinReply.t)
    (now : Time) :
  is_Some (clients cr !! LeaveArgs.ID args) →
  ∃ cr', Leave cr args reply now
         = (cr', JoinReply.mk true (JoinReply.AssignedName reply) "Disconnected", None)
    ∧ clients cr' = delete (LeaveArgs.ID args) (clients cr)
    ∧ logs cr' = logs cr ++ [leave_notice (nextID cr) (LeaveArgs.ID args) now]
    ∧ nextID cr' = GoInt.add (nextID cr) 1.
Proof. intros [c Hc]. unfold Leave. rewrite Hc. by eexists. Qed.

(** Leaving twice: the second call finds no client and appends nothing. *)
Lemma Leave_twice (cr : ChatRoom) (args : LeaveArgs.t) (r1 r2 : JoinReply.t)
    (t1 t2 : Time) :
  Leave (Leave cr args r1 t1).1.1 args r2 t2
  = ((Leave cr args r1 t1).1.1, r2, None).
Proof.
  apply Leave_absent. unfold Leave.
  destruct (clients cr !! LeaveArgs.ID args) eqn:Hc; simpl; [|done].
  apply lookup_delete_eq.
Qed.

(** C4 fails on the code in the reply: [Leave] returns before it assigns
    [reply.Success].  Served for an id that never joined, and served a
    second time for a client that has left, it returns [nil] and the room
    as it was, and the reply still has [Success] false. *)
Theorem Leave_absent_reply :
  serve NewChatRoom (CallLeave (LeaveArgs.mk "ghost") (mkTime 0))
    = (NewChatRoom, ReplyLeave (JoinReply.mk false "" ""), None)
  ∧ clients left_room !! "A" = None
  ∧ length (logs left_room) = 2%nat
  ∧ serve left_room (CallLeave (LeaveArgs.mk "A") (mkTime 0))
    = (left_room, ReplyLeave (JoinReply.mk false "" ""), None).
Proof. repeat split; reflexivity. Qed.

(** ** The theorems at work on concrete rooms *)

Lemma echo_room_reachable : reachable echo_room.
Proof. by eexists. Qed.

Lemma echo_room_slice_ok : slice_ok (logs echo_room).
Proof. vm_compute. discriminate. Qed.

Lemma echo_room_registered : is_Some (clients echo_room !! "A").
Proof. by eexists. Qed.

Lemma GetUpdates_watermark_witness :
  reachable echo_room ∧ slice_ok (logs echo_room)
  ∧ is_Some (clients echo_room !! "A")
  ∧ ∃ r, GetUpdates echo_room (UpdateArgs.mk "A" 0) UpdateReply.zero
         = (echo_room, r, None)
      ∧ UpdateReply.NewMsgID r
        = highest_above 0 (from_others "A" (logs echo_room)).
Proof.
  split; [apply echo_room_reachable|]. split; [apply echo_room_slice_ok|].
  split; [apply echo_room_registered|].
  destruct (GetUpdates_watermark echo_room (UpdateArgs.mk "A" 0) UpdateReply.zero
              echo_room_reachable echo_room_slice_ok echo_room_registered)
    as (r & Hr & Hmax & _).
  exists r. split; [exact Hr | exact Hmax].
Defined.

Lemma log_ids_consecutive_witness :
  slice_ok (logs echo_room)
  ∧ Message.ID <$> logs echo_room
    = seqZ 1 (Z.of_nat (length (logs echo_room))).
Proof.
  split; [apply echo_room_slice_ok|].
  destruct (log_ids_consecutive
              [CallJoin (JoinArgs.mk "A") clock0;
               CallSend (SendArgs.mk "A" "M") (mkTime 0)]
              echo_room eq_refl echo_room_slice_ok)
    as (_ & _ & Hids & _).
  exact Hids.
Defined.

Lemma GetUpdates_messages_witness :
  is_Some (clients echo_room !! "A")
  ∧ ∃ r, GetUpdates echo_room (UpdateArgs.mk "A" 0) UpdateReply.zero
         = (echo_room, r, None)
      ∧ (∀ m, Message.Sender m = "A" → m ∉ UpdateReply.Messages r).
Proof.
  split; [apply echo_room_registered|].
  destruct (GetUpdates_messages echo_room (UpdateArgs.mk "A" 0) UpdateReply.zero
              echo_room_registered)
    as (r & Hr & _ & _ & Hecho & _).
  exists r. split; [exact Hr | exact Hecho].
Defined.

Lemma GetUpdates_watermark_last_witness :
  GetUpdates echo_room (UpdateArgs.mk "A" 0) UpdateReply.zero
  = (echo_room, UpdateReply.mk [join_notice 1 "A" (mkTime 0)] 1, None)
  ∧ 0 ≤ 1.
Proof.
  split; [reflexivity|].
  exact (proj1 (GetUpdates_watermark_last echo_room echo_room
                  (UpdateArgs.mk "A" 0) UpdateReply.zero
                  (UpdateReply.mk [join_notice 1 "A" (mkTime 0)] 1) eq_refl)).
Defined.

Lemma Send_effect_witness :
  clients echo_room !! "ghost" = None
  ∧ Send echo_room (SendArgs.mk "ghost" "") SendReply.zero (mkTime 0)
    = (echo_room, SendReply.zero, Some NotRegistered).
Proof.
  split; [reflexivity|].
  exact (proj1 (Send_effect echo_room (SendArgs.mk "ghost" "") SendReply.zero
                  (mkTime 0)) eq_refl).
Defined.

Lemma assignName_rules_witness :
  is_Some (clients twin_room !! base_name "A")
  ∧ is_Some (clients twin_room !! (base_name "A" +:+ pretty 1))
  ∧ clients twin_room !! (base_name "A" +:+ pretty 2) = None
  ∧ assignName twin_room "A" (mkTime 0) = base_name "A" +:+ pretty 2.
Proof.
  assert (is_Some (clients twin_room !! base_name "A")) as Hbase by (by eexists).
  assert (is_Some (clients twin_room !! (base_name "A" +:+ pretty 1))) as Hone
    by (by eexists).
  split; [exact Hbase|]. split; [exact Hone|]. split; [reflexivity|].
  destruct (assignName_rules twin_room "A" (mkTime 0)) as (_ & _ & _ & Hprobe & _).
  apply (Hprobe 2 Hbase); [lia| |reflexivity].
  intros j Hj. assert (j = 1) as -> by lia. exact Hone.
Defined.

Lemma registry_keyed_invariant_witness :
  reachable echo_room
  ∧ clients echo_room !! "A" = Some (Client.mk "A" 2 (mkTime 0) "A")
  ∧ Client.ID (Client.mk "A" 2 (mkTime 0) "A") = "A".
Proof.
  split; [apply echo_room_reachable|]. split; [reflexivity|].
  destruct registry_keyed_invariant as (_ & _ & _ & _ & _ & Hkey).
  exact (Hkey echo_room "A" _ echo_room_reachable eq_refl).
Defined.

(** * Further properties of the room *)

(** ** The log only grows *)

Lemma step_log_prefix (cr : ChatRoom) (c : Call) :
  logs cr `prefix_of` logs (step cr c).
Proof.
  destruct (step_log_change cr c) as [-> _|m -> _ _]; [done|].
  by apply prefix_app_r.
Qed.

Lemma run_log_prefix (cr : ChatRoom) (cs : list Call) :
  logs cr `prefix_of` logs (run cr cs).
Proof.
  induction cs as [|c cs IH] using rev_ind; [done|].
  rewrite run_snoc. etrans; [exact IH|apply step_log_prefix].
Qed.

Lemma run_reachable (cr : ChatRoom) (cs : list Call) :
  reachable cr → reachable (run cr cs).
Proof.
  intros [cs0 ->]. exists (cs0 ++ cs). unfold run. by rewrite fold_left_app.
Qed.

Lemma slice_ok_prefix {A : Type} (l1 l2 : list A) :
  l1 `prefix_of` l2 → slice_ok l2 → slice_ok l1.
Proof. intros Hp%prefix_length. unfold slice_ok. lia. Qed.

(** X1.  The log is append-only: after any sequence of calls the log the
    room had is a prefix of the log it has, so every message stays at its
    position, with its id, sender, content and time. *)
Theorem log_append_only (cr : ChatRoom) (cs : list Call) :
  logs cr `prefix_of` logs (run cr cs)
  ∧ (∀ i m, logs cr !! i = Some m → logs (run cr cs) !! i = Some m)
  ∧ (length (logs cr) ≤ length (logs (run cr cs)))%nat.
Proof.
  pose proof (run_log_prefix cr cs) as Hp. split; [done|]. split.
  - intros i m Hi. by eapply prefix_lookup_Some.
  - by apply prefix_length.
Qed.

(** ** Errors *)

(** X2.  A call that is answered with an error leaves the room exactly as
    it was, and there are only two such answers: [Send] and [GetUpdates]
    under an id that is not a key of the registry.  [Join] and [Leave]
    never return an error. *)
Theorem serve_error (cr cr' : ChatRoom) (c : Call) (r : Reply) (e : error) :
  serve cr c = (cr', r, Some e) →
  cr' = cr
  ∧ ((∃ args now, c = CallSend args now
                  ∧ clients cr !! SendArgs.ID args = None
                  ∧ r = ReplySend SendReply.zero ∧ e = NotRegistered)
     ∨ (∃ args, c = CallGetUpdates args
                ∧ clients cr !! UpdateArgs.ID args = None
                ∧ r = ReplyUpdate UpdateReply.zero ∧ e = UnknownClient)).
Proof.
  destruct c as [args clock|args now|args|args now]; unfold serve.
  - unfold Join. intros [=].
  - unfold Send. destruct (clients cr !! SendArgs.ID args) eqn:Hc; intros [= <- <- <-].
    split; [done|]. left. by exists args, now.
  - destruct (clients cr !! UpdateArgs.ID args) eqn:Hc.
    + rewrite GetUpdates_registered by eauto. intros [=].
    + rewrite GetUpdates_unknown by done. intros [= <- <- <-].
      split; [done|]. right. by exists args.
  - unfold Leave. destruct (clients cr !! LeaveArgs.ID args); intros [=].
Qed.

(** ** Polling again *)

Lemma filter_ext_elem {A : Type} (P Q : A → Prop)
    `{!∀ x, Decision (P x)} `{!∀ x, Decision (Q x)} (l : list A) :
  (∀ x, x ∈ l → (P x ↔ Q x)) → filter P l = filter Q l.
Proof.
  induction l as [|x l IH]; intros Hext; [done|].
  rewrite !filter_cons.
  assert (filter P l = filter Q l) as ->.
  { apply IH. intros y Hy. apply Hext. by right. }
  destruct (decide (P x)) as [HP|HP], (decide (Q x)) as [HQ|HQ]; try done;
    exfalso; apply (Hext x) in HP || apply (Hext x) in HQ; try done; by left.
Qed.

Lemma delivered_app (args : UpdateArgs.t) (ms ext : list Message.t) :
  delivered args (ms ++ ext) = delivered args ms ++ delivered args ext.
Proof. apply filter_app. Qed.

(** The watermark of a poll over [ms] with cursor [l]. *)
Lemma watermark_bounds (id : string) (l : Z) (ms : list Message.t) :
  let w := default l (last (Message.ID <$> delivered (UpdateArgs.mk id l) ms)) in
  l ≤ w ∧ (delivered (UpdateArgs.mk id l) ms = [] → w = l)
  ∧ (delivered (UpdateArgs.mk id l) ms ≠ [] →
     ∃ m, m ∈ ms ∧ Message.ID m = w ∧ l < w).
Proof.
  simpl. rewrite fmap_last.
  destruct (last (delivered (UpdateArgs.mk id l) ms)) as [m|] eqn:Hm; simpl.
  - pose proof (last_Some_elem_of _ _ Hm) as (Hin & Hlt & _)%delivered_elem.
    simpl in Hlt. split; [lia|]. split.
    + intros Hnil. by rewrite Hnil in Hm.
    + intros _. by exists m.
  - apply last_None in Hm. split; [lia|]. split; done.
Qed.

(** In an ascending log nothing that a poll skipped or returned lies above
    its watermark. *)
Lemma delivered_above_watermark (id : string) (l : Z) (ms : list Message.t) :
  StronglySorted Z.lt (Message.ID <$> ms) →
  delivered
    (UpdateArgs.mk id
       (default l (last (Message.ID <$> delivered (UpdateArgs.mk id l) ms))))
    ms = [].
Proof.
  intros Hs. apply elem_of_nil_inv. intros m (Hin & Hw & Hne)%delivered_elem.
  simpl in Hw, Hne.
  pose proof (watermark_bounds id l ms) as (Hle & _). simpl in Hle.
  assert (m ∈ delivered (UpdateArgs.mk id l) ms) as Hm.
  { apply delivered_elem. simpl. split; [done|]. split; [lia|done]. }
  assert (Message.ID m ≤ foldr Z.max l (Message.ID <$> delivered (UpdateArgs.mk id l) ms))
    as Hmax.
  { apply foldr_max_ge, list_elem_of_fmap. by exists m. }
  rewrite foldr_max_sorted in Hmax; [lia|by apply sorted_filter|].
  rewrite Forall_forall. intros x [m' [-> Hm']]%list_elem_of_fmap.
  by apply delivered_elem in Hm' as (_ & Hlt & _).
Qed.

(** Resuming from the watermark of a poll over [ms], in a log that has
    grown by [ext], delivers what the first poll did not. *)
Lemma delivered_resume (id : string) (l : Z) (ms ext : list Message.t) :
  StronglySorted Z.lt (Message.ID <$> (ms ++ ext)) →
  delivered (UpdateArgs.mk id l) ms
  ++ delivered
       (UpdateArgs.mk id
          (default l (last (Message.ID <$> delivered (UpdateArgs.mk id l) ms))))
       (ms ++ ext)
  = delivered (UpdateArgs.mk id l) (ms ++ ext).
Proof.
  intros Hs. rewrite !delivered_app.
  rewrite fmap_app in Hs. pose proof Hs as (Hlt & Hms & _)%StronglySorted_app.
  rewrite delivered_above_watermark by done. simpl. f_equal.
  apply filter_ext_elem. intros m Hm. simpl.
  pose proof (watermark_bounds id l ms) as (Hle & Hnil & Hcons). simpl in *.
  split; intros [Hid Hne]; (split; [|done]); [lia|].
  destruct (decide (delivered (UpdateArgs.mk id l) ms = [])) as [Hd|Hd].
  - rewrite Hnil by done. done.
  - destruct (Hcons Hd) as (m0 & Hm0 & <- & _).
    apply Hlt; apply list_elem_of_fmap; eauto.
Qed.

(** X3.  In a room reached from a new one, polling again from the
    watermark that a poll returned brings nothing: no message and the same
    watermark.  (The caller's own messages above the watermark are scanned
    and skipped again.) *)
Theorem GetUpdates_again (cr : ChatRoom) (id : string) (l : Z)
    (reply reply' r : UpdateReply.t) :
  reachable cr → slice_ok (logs cr) →
  GetUpdates cr (UpdateArgs.mk id l) reply = (cr, r, None) →
  GetUpdates cr (UpdateArgs.mk id (UpdateReply.NewMsgID r)) reply'
  = (cr, {| UpdateReply.Messages := []; UpdateReply.NewMsgID := UpdateReply.NewMsgID r |},
     None).
Proof.
  intros Hr Hok Hpoll.
  destruct (clients cr !! id) as [c|] eqn:Hc;
    [|by rewrite GetUpdates_unknown in Hpoll].
  rewrite GetUpdates_registered in Hpoll by (simpl; eauto).
  injection Hpoll as <-. simpl.
  rewrite GetUpdates_registered by (simpl; eauto). simpl.
  by rewrite delivered_above_watermark by by apply reachable_sorted.
Qed.

(** X4.  Polls compose.  If a client polls with cursor [l], the room then
    serves any calls, and the client polls again with the watermark of the
    first poll, the two replies together hold exactly the messages, in the
    same order, that one poll with cursor [l] returns in the later room, and
    the second watermark is the watermark of that one poll: nothing is
    lost and nothing comes twice. *)
Theorem GetUpdates_incremental (cr : ChatRoom) (cs : list Call) (id : string)
    (l : Z) (reply1 reply2 reply3 r1 : UpdateReply.t) :
  reachable cr → slice_ok (logs (run cr cs)) →
  is_Some (clients (run cr cs) !! id) →
  GetUpdates cr (UpdateArgs.mk id l) reply1 = (cr, r1, None) →
  ∃ r2 r,
    GetUpdates (run cr cs) (UpdateArgs.mk id (UpdateReply.NewMsgID r1)) reply2
      = (run cr cs, r2, None)
    ∧ GetUpdates (run cr cs) (UpdateArgs.mk id l) reply3 = (run cr cs, r, None)
    ∧ UpdateReply.Messages r1 ++ UpdateReply.Messages r2 = UpdateReply.Messages r
    ∧ UpdateReply.NewMsgID r2 = UpdateReply.NewMsgID r.
Proof.
  intros Hr Hok Hreg Hpoll.
  destruct (clients cr !! id) as [c|] eqn:Hc;
    [|by rewrite GetUpdates_unknown in Hpoll].
  rewrite GetUpdates_registered in Hpoll by (simpl; eauto).
  injection Hpoll as <-. simpl.
  do 2 eexists. split; [by apply GetUpdates_registered|].
  split; [by apply GetUpdates_registered|]. simpl.
  destruct (run_log_prefix cr cs) as [ext Hext].
  pose proof (reachable_sorted _ (run_reachable _ cs Hr) Hok) as Hs.
  rewrite Hext in Hs |- *.
  set (w := default l (last (Message.ID <$> delivered (UpdateArgs.mk id l) (logs cr)))).
  pose proof (delivered_resume id l (logs cr) ext Hs) as Hres. fold w in Hres.
  split; [done|]. rewrite <- Hres, fmap_app, last_app.
  destruct (last (Message.ID <$> delivered (UpdateArgs.mk id w) (logs cr ++ ext)));
    done.
Qed.

(** * Properties of the client's receiver *)

Lemma from_others_app (id : string) (ms ext : list Message.t) :
  from_others id (ms ++ ext) = from_others id ms ++ from_others id ext.
Proof. apply filter_app. Qed.

(** With a cursor below every id, a poll delivers all that others sent. *)
Lemma delivered_all (id : string) (l : Z) (ms : list Message.t) :
  (∀ m, m ∈ ms → l < Message.ID m) →
  delivered (UpdateArgs.mk id l) ms = from_others id ms.
Proof.
  intros Hl. apply filter_ext_elem. intros m Hm. simpl.
  specialize (Hl m Hm). tauto.
Qed.

Lemma reachable_ids_positive (cr : ChatRoom) (m : Message.t) :
  reachable cr → slice_ok (logs cr) → m ∈ logs cr →
  0 < Message.ID m ≤ Z.of_nat (length (logs cr)).
Proof.
  intros Hr Hok [i Hi]%list_elem_of_lookup.
  rewrite (numbered_lookup _ _ _ (reachable_numbered _ Hr) Hok Hi).
  apply lookup_lt_Some in Hi. lia.
Qed.

Lemma session_step_room_prefix (username : string) (s : Session) (e : Event) :
  logs (room s) `prefix_of` logs (room (session_step username s e)).
Proof.
  destruct e as [c|]; simpl; [apply step_log_prefix|].
  destruct (receiver s); [|done].
  by destruct (receive _ _ _) as [[??]?].
Qed.

Lemma session_inv_start (username : string) (cr : ChatRoom) :
  reachable cr → slice_ok (logs cr) → session_inv username (session_start cr).
Proof.
  intros Hr Hok. split; [done|]. simpl. split; [lia|].
  rewrite delivered_all; [done|].
  intros m Hm. by apply (reachable_ids_positive cr).
Qed.

Lemma session_inv_served (username : string) (s : Session) (c : Call) :
  slice_ok (logs (step (room s) c)) →
  session_inv username s → session_inv username (session_step username s (Served c)).
Proof.
  intros Hok [Hr Hinv]. split; [by apply (run_reachable _ [c])|]. simpl.
  assert (reachable (step (room s) c)) as Hr' by by apply (run_reachable _ [c]).
  destruct (step_log_prefix (room s) c) as [ext Hext].
  assert (∀ m, m ∈ ext → Z.of_nat (length (logs (room s))) < Message.ID m) as Hnew.
  { intros m [j Hj]%list_elem_of_lookup.
    assert (logs (step (room s) c) !! (length (logs (room s)) + j)%nat = Some m) as Hi.
    { rewrite Hext, lookup_app_r by lia. rewrite <- Hj. f_equal. lia. }
    rewrite (numbered_lookup _ _ _ (reachable_numbered _ Hr') Hok Hi). lia. }
  rewrite Hext, from_others_app, fmap_app.
  destruct (receiver s) as [l|].
  - destruct Hinv as [Hl Heq]. split; [rewrite length_app; lia|].
    rewrite delivered_app, fmap_app, app_assoc, Heq. do 2 f_equal.
    apply delivered_all. intros m Hm. specialize (Hnew m Hm). lia.
  - by apply prefix_app_r.
Qed.

Lemma session_inv_tick (username : string) (s : Session) :
  slice_ok (logs (room s)) →
  session_inv username s →
  session_inv username (session_step username s Tick)
  ∧ (∀ w, receiver s ≠ Stopped →
          receiver (session_step username s Tick) = Polling w →
          screen (session_step username s Tick)
          = decode <$> from_others username (logs (room s))).
Proof.
  intros Hok [Hr Hinv]. simpl.
  destruct (receiver s) as [l|] eqn:Hrecv;
    [|split; [split; [done|by rewrite Hrecv]|done]].
  destruct Hinv as [Hl Heq]. unfold receive.
  destruct (clients (room s) !! username) as [c|] eqn:Hc.
  - rewrite GetUpdates_registered by (simpl; eauto). simpl.
    set (D := delivered (UpdateArgs.mk username l) (logs (room s))) in *.
    pose proof (watermark_bounds username l (logs (room s))) as (Hle & Hnil & Hcons).
    simpl in Hle, Hnil, Hcons. fold D in Hle, Hnil, Hcons.
    rewrite length_fmap.
    destruct (Z.gtb_spec (Z.of_nat (length D)) 0) as [Hlen|Hlen]; simpl.
    + pose proof (delivered_above_watermark username l (logs (room s))
                    (reachable_sorted _ Hr Hok)) as Habove. fold D in Habove.
      assert (D ≠ []) as HD by (intros HD; rewrite HD in Hlen; simpl in Hlen; lia).
      destruct (Hcons HD) as (m & Hm & Hid & Hlt).
      pose proof (reachable_ids_positive _ m Hr Hok Hm) as Hpos.
      split.
      * split; [done|]. simpl. split; [lia|].
        rewrite Habove. simpl. by rewrite app_nil_r.
      * intros w _ _. done.
    + assert (D = []) as HD by (destruct D; [done|simpl in Hlen; lia]).
      split.
      * split; [done|]. simpl. split; [done|]. by rewrite app_nil_r.
      * intros w _ _. rewrite app_nil_r. rewrite HD in Heq. simpl in Heq.
        by rewrite app_nil_r in Heq.
  - rewrite GetUpdates_unknown by done. simpl. split; [|done].
    split; [done|]. simpl. rewrite app_nil_r. rewrite <- Heq. by apply prefix_app_r.
Qed.

Lemma session_run_snoc (username : string) (s : Session) (evs : list Event)
    (e : Event) :
  session_run username s (evs ++ [e])
  = session_step username (session_run username s evs) e.
Proof. unfold session_run. by rewrite fold_left_app. Qed.

Lemma session_inv_run (username : string) (cr : ChatRoom) (evs : list Event) :
  reachable cr →
  slice_ok (logs (room (session_run username (session_start cr) evs))) →
  session_inv username (session_run username (session_start cr) evs).
Proof.
  intros Hr. induction evs as [|e evs IH] using rev_ind; intros Hok.
  - by apply session_inv_start.
  - rewrite session_run_snoc in Hok |- *.
    set (s := session_run username (session_start cr) evs) in *.
    assert (slice_ok (logs (room s))) as Hok'.
    { eapply slice_ok_prefix; [apply (session_step_room_prefix username s e)|done]. }
    destruct e as [c|].
    + apply session_inv_served; [done|by apply IH].
    + by apply session_inv_tick, IH.
Qed.

(** X5.  The receiver of a client that starts with cursor 0 next to a
    reachable room, whatever calls the server serves between its turns:
    the messages it has printed are, in the order of the log and each once,
    a first part of the messages of the log that were not sent under its
    name (those from before it joined included); their ids ascend; while it
    polls, what it has printed followed by what the next poll delivers is
    all of them; and right after a turn that did not stop it, it has
    printed all of them. *)
Theorem receiver_complete (username : string) (cr : ChatRoom) (evs : list Event) :
  reachable cr →
  slice_ok (logs (room (session_run username (session_start cr) evs))) →
  screen (session_run username (session_start cr) evs)
    `prefix_of` (decode <$> from_others username
                   (logs (room (session_run username (session_start cr) evs))))
  ∧ StronglySorted Z.lt
      (Received.ID <$> screen (session_run username (session_start cr) evs))
  ∧ (∀ l, receiver (session_run username (session_start cr) evs) = Polling l →
          screen (session_run username (session_start cr) evs)
          ++ (decode <$> delivered (UpdateArgs.mk username l)
                (logs (room (session_run username (session_start cr) evs))))
          = decode <$> from_others username
              (logs (room (session_run username (session_start cr) evs))))
  ∧ (∀ evs' w, evs = evs' ++ [Tick] →
          receiver (session_run username (session_start cr) evs) = Polling w →
          screen (session_run username (session_start cr) evs)
          = decode <$> from_others username
              (logs (room (session_run username (session_start cr) evs)))).
Proof.
  intros Hr Hok.
  pose proof (session_inv_run username cr evs Hr Hok) as [Hr' Hinv].
  assert (screen (session_run username (session_start cr) evs)
            `prefix_of` (decode <$> from_others username
               (logs (room (session_run username (session_start cr) evs)))))
    as Hprefix.
  { destruct (receiver _) as [l|]; [|done].
    destruct Hinv as [_ <-]. by apply prefix_app_r. }
  split; [done|]. split.
  { destruct Hprefix as [rest Hrest].
    assert (StronglySorted Z.lt
              (Received.ID <$> (decode <$> from_others username
                 (logs (room (session_run username (session_start cr) evs))))))
      as Hs.
    { rewrite <- list_fmap_compose. by apply sorted_filter, reachable_sorted. }
    rewrite Hrest, fmap_app in Hs. by apply StronglySorted_app_1_l in Hs. }
  split.
  { intros l Hl. rewrite Hl in Hinv. by destruct Hinv as [_ Heq]. }
  intros evs' w -> Hw. rewrite session_run_snoc in Hw, Hok |- *.
  set (s := session_run username (session_start cr) evs') in *.
  assert (room (session_step username s Tick) = room s) as Hroom.
  { simpl. destruct (receiver s); [|done]. by destruct (receive _ _ _) as [[??]?]. }
  rewrite Hroom in Hok |- *.
  pose proof (session_inv_run username cr evs' Hr Hok) as Hprev. fold s in Hprev.
  destruct (session_inv_tick username s Hok Hprev) as [_ Hall].
  apply (Hall w); [|done].
  intros Hstop. simpl in Hw. rewrite Hstop in Hw. congruence.
Qed.

(** * Further properties of name allocation and of the registry *)

Lemma append_empty_r (s : string) : s +:+ "" = s.
Proof.
  induction s as [|a s IH]; [done|].
  change (String a (s +:+ "") = String a s). by rewrite IH.
Qed.

Lemma append_not_empty (s t : string) : s ≠ "" → s +:+ t ≠ "".
Proof. by destruct s. Qed.

Lemma base_name_not_empty (requested : string) : base_name requested ≠ "".
Proof. unfold base_name. by destruct (decide (requested = "")). Qed.

(** The suffixes of the hundred candidates are pairwise different. *)
Lemma suffixes_NoDup : NoDup ("" :: (pretty <$> seqZ 1 99)).
Proof. apply (bool_decide_unpack _). by vm_compute. Qed.

Lemma candidates_suffixes (base : string) :
  candidates base = String.append base <$> ("" :: (pretty <$> seqZ 1 99)).
Proof.
  unfold candidates. rewrite fmap_cons, append_empty_r, <- list_fmap_compose. done.
Qed.

Lemma candidates_NoDup (base : string) : NoDup (candidates base).
Proof.
  rewrite candidates_suffixes. apply NoDup_fmap_2; [apply _|apply suffixes_NoDup].
Qed.

Lemma candidates_length (base : string) : length (candidates base) = 100%nat.
Proof. unfold candidates. cbn [length]. by rewrite length_fmap, length_seqZ. Qed.

Lemma candidates_elem (base c : string) :
  c ∈ candidates base ↔ c = base ∨ ∃ i, 1 ≤ i ≤ 99 ∧ c = base +:+ pretty i.
Proof.
  unfold candidates. rewrite elem_of_cons, list_elem_of_fmap.
  setoid_rewrite elem_of_seqZ. unfold Sprintf_s_d.
  split; (intros [?|(i & ? & ?)]; [by left|right; exists i; split; [done||lia|done||lia]]).
Qed.

(** Fewer than a hundred clients cannot hold all hundred candidates. *)
Lemma candidate_free (cr : ChatRoom) (base : string) :
  (size (clients cr) < 100)%nat →
  ∃ c, c ∈ candidates base ∧ clients cr !! c = None.
Proof.
  intros Hsize.
  destruct (decide (Forall (λ c, is_Some (clients cr !! c)) (candidates base)))
    as [Hall|Hsome].
  - exfalso.
    assert (list_to_set (candidates base) ⊆ dom (clients cr)) as Hsub.
    { intros c Hc%elem_of_list_to_set. apply elem_of_dom.
      rewrite Forall_forall in Hall. by apply Hall. }
    apply subseteq_size in Hsub.
    rewrite size_list_to_set, candidates_length, size_dom in Hsub
      by apply candidates_NoDup.
    lia.
  - apply not_Forall_Exists in Hsome; [|apply _].
    apply Exists_exists in Hsome as (c & Hc & Hfree). exists c. split; [done|].
    simpl in Hfree. by apply eq_None_not_Some.
Qed.

Lemma assignName_loop_Some (cr : ChatRoom) (base n : string) (todo : nat) (i0 : Z) :
  assignName_loop cr base todo i0 = Some n →
  ∃ i, i0 ≤ i < i0 + Z.of_nat todo ∧ n = Sprintf_s_d base i
       ∧ clients cr !! n = None.
Proof.
  revert i0. induction todo as [|todo IH]; intros i0; [done|]. simpl.
  destruct (clients cr !! Sprintf_s_d base i0) eqn:Hi0.
  - intros (i & Hi & Hn)%IH. exists i. split; [lia|done].
  - intros [= <-]. exists i0. split; [lia|done].
Qed.

(** The two ways of [assignName]: a candidate that is free, or, when all
    hundred are taken, the name built from the clock. *)
Lemma assignName_cases (cr : ChatRoom) (requested : string) (now : Time) :
  (assignName cr requested now ∈ candidates (base_name requested)
   ∧ clients cr !! assignName cr requested now = None)
  ∨ (Forall (λ c, is_Some (clients cr !! c)) (candidates (base_name requested))
     ∧ assignName cr requested now
       = Sprintf_s__d (base_name requested) (GoInt.rem (UnixNano now) 9999)).
Proof.
  unfold assignName. fold (base_name requested).
  destruct (clients cr !! base_name requested) as [c|] eqn:Hc.
  - destruct (assignName_loop cr (base_name requested) 99 1) as [n|] eqn:Hn.
    + left. apply assignName_loop_Some in Hn as (i & Hi & -> & Hfree).
      split; [|done]. apply candidates_elem. right. exists i. split; [lia|done].
    + right. split; [|done]. rewrite Forall_forall.
      intros c' [->|(i & Hi & ->)]%candidates_elem; [by eexists|].
      apply (assignName_loop_None cr (base_name requested) 99 1 i Hn). lia.
  - left. split; [|done]. apply candidates_elem. by left.
Qed.

Lemma assignName_not_empty (cr : ChatRoom) (requested : string) (now : Time) :
  assignName cr requested now ≠ "".
Proof.
  destruct (assignName_cases cr requested now) as [[Hcand _]|[_ ->]].
  - apply candidates_elem in Hcand as [->|(i & _ & ->)];
      auto using append_not_empty, base_name_not_empty.
  - apply append_not_empty, base_name_not_empty.
Qed.

(** X6.  In a room of fewer than a hundred clients [Join] always finds a
    name that is free: the assigned name is one of the hundred candidates
    of the base, it was not a key before, it is the key of the new client
    afterwards, every client of the room keeps its entry, and the registry
    has exactly one client more. *)
Theorem Join_below_100 (cr : ChatRoom) (args : JoinArgs.t) (reply : JoinReply.t)
    (clock : JoinClock) :
  (size (clients cr) < 100)%nat →
  ∃ cr' r, Join cr args reply clock = (cr', r, None)
    ∧ JoinReply.Success r = true
    ∧ JoinReply.AssignedName r ∈ candidates (base_name (JoinArgs.RequestedName args))
    ∧ clients cr !! JoinReply.AssignedName r = None
    ∧ clients cr' !! JoinReply.AssignedName r
      = Some (Client.mk (JoinReply.AssignedName r) (GoInt.sub (nextID cr) 1)
                        (at_joined clock) (JoinArgs.RequestedName args))
    ∧ (∀ k c, clients cr !! k = Some c → clients cr' !! k = Some c)
    ∧ size (clients cr') = S (size (clients cr)).
Proof.
  intros Hsize.
  destruct (assignName_cases cr (JoinArgs.RequestedName args) (at_assign clock))
    as [[Hcand Hnew]|[Hall _]].
  - destruct (Join_effect cr args reply clock)
      as (cr' & HJoin & _ & _ & _ & Hin & Hother & Hgrow & _).
    exists cr'. eexists. split; [exact HJoin|]. simpl.
    split; [done|]. split; [done|]. split; [done|]. split; [done|].
    split; [|by apply Hgrow].
    intros k c' Hk. rewrite Hother; [done|]. intros ->. congruence.
  - destruct (candidate_free cr (base_name (JoinArgs.RequestedName args)) Hsize)
      as (c & Hc & Hfree).
    rewrite Forall_forall in Hall. destruct (Hall c Hc) as [? ?]. congruence.
Qed.

(** X7.  The assigned name is never empty and always begins with the
    base: the requested name, or "Guest" when the request is empty.  It is
    the base itself, or the base followed by a number from 1 to 99, or,
    when all of these are taken, the base followed by "_" and the clock
    reading modulo 9999. *)
Theorem assignName_shape (cr : ChatRoom) (requested : string) (now : Time) :
  assignName cr requested now ≠ ""
  ∧ (∃ suffix, assignName cr requested now = base_name requested +:+ suffix)
  ∧ (assignName cr requested now = base_name requested
     ∨ (∃ i, 1 ≤ i ≤ 99
             ∧ assignName cr requested now = base_name requested +:+ pretty i)
     ∨ (assignName cr requested now
        = base_name requested +:+ "_" +:+ pretty (Z.rem (UnixNano now) 9999)
        ∧ ∀ c, c ∈ candidates (base_name requested) → is_Some (clients cr !! c))).
Proof.
  assert (assignName cr requested now = base_name requested
     ∨ (∃ i, 1 ≤ i ≤ 99
             ∧ assignName cr requested now = base_name requested +:+ pretty i)
     ∨ (assignName cr requested now
        = base_name requested +:+ "_" +:+ pretty (Z.rem (UnixNano now) 9999)
        ∧ ∀ c, c ∈ candidates (base_name requested) → is_Some (clients cr !! c)))
    as Hcases.
  { destruct (assignName_cases cr requested now) as [[Hcand _]|[Hall Hname]].
    - apply candidates_elem in Hcand as [?|?]; auto.
    - right. right. split; [done|]. by rewrite Forall_forall in Hall. }
  split; [|split; [|done]].
  - destruct Hcases as [->|[(i & _ & ->)|[-> _]]];
      auto using append_not_empty, base_name_not_empty.
  - destruct Hcases as [->|[(i & _ & ->)|[-> _]]]; eauto.
    exists "". by rewrite append_empty_r.
Qed.

(** ** Leaving *)

(** X8.  [Leave] under an id that is a key removes that client and no
    other: the call succeeds, the id is no longer a key, every other entry
    is as before, the registry has one client less, the log has the leave
    notice as its new last message, and from then on [Send] and
    [GetUpdates] under that id fail and change nothing. *)
Theorem Leave_removes (cr : ChatRoom) (args : LeaveArgs.t) (reply : JoinReply.t)
    (now : Time) :
  is_Some (clients cr !! LeaveArgs.ID args) →
  ∃ cr' r, Leave cr args reply now = (cr', r, None)
    ∧ JoinReply.Success r = true
    ∧ clients cr' !! LeaveArgs.ID args = None
    ∧ (∀ k, k ≠ LeaveArgs.ID args → clients cr' !! k = clients cr !! k)
    ∧ S (size (clients cr')) = size (clients cr)
    ∧ logs cr' = logs cr ++ [leave_notice (nextID cr) (LeaveArgs.ID args) now]
    ∧ (∀ msg rs t, Send cr' (SendArgs.mk (LeaveArgs.ID args) msg) rs t
                   = (cr', rs, Some NotRegistered))
    ∧ (∀ l ru, GetUpdates cr' (UpdateArgs.mk (LeaveArgs.ID args) l) ru
               = (cr', ru, Some UnknownClient)).
Proof.
  intros Hreg. destruct (Leave_present cr args reply now Hreg)
    as (cr' & HLeave & Hclients & Hlogs & _).
  assert (clients cr' !! LeaveArgs.ID args = None) as Hgone
    by (rewrite Hclients; apply lookup_delete_eq).
  exists cr'. eexists. split; [exact HLeave|]. simpl.
  split; [done|]. split; [done|].
  split; [intros k Hk; rewrite Hclients; by apply lookup_delete_ne|].
  split.
  { rewrite Hclients, map_size_delete_Some by done. destruct Hreg as [c Hc].
    assert (size (clients cr) ≠ 0%nat); [|lia].
    intros Hz%map_size_empty_iff. rewrite Hz in Hc. by rewrite lookup_empty in Hc. }
  split; [done|]. split.
  - intros msg rs t. unfold Send. simpl. by rewrite Hgone.
  - intros l ru. by apply GetUpdates_unknown.
Qed.

(** X9.  Joining and leaving again restores the registry.  When [Join]
    assigns a name that was free (as it does in every room of fewer than a
    hundred clients), a [Leave] under the assigned name gives back the
    registry of before the join; the log keeps the two notices, and the
    counter has advanced twice. *)
Theorem Join_Leave (cr cr1 : ChatRoom) (args : JoinArgs.t) (reply r1 reply' : JoinReply.t)
    (clock : JoinClock) (now : Time) :
  Join cr args reply clock = (cr1, r1, None) →
  clients cr !! JoinReply.AssignedName r1 = None →
  ∃ cr2 r2, Leave cr1 (LeaveArgs.mk (JoinReply.AssignedName r1)) reply' now
            = (cr2, r2, None)
    ∧ clients cr2 = clients cr
    ∧ logs cr2 = logs cr
                 ++ [join_notice (nextID cr) (JoinReply.AssignedName r1) (at_notice clock);
                     leave_notice (GoInt.add (nextID cr) 1)
                                  (JoinReply.AssignedName r1) now]
    ∧ nextID cr2 = GoInt.add (GoInt.add (nextID cr) 1) 1.
Proof.
  unfold Join. intros [= <- <-] Hfree. simpl in *. unfold Leave. simpl.
  rewrite lookup_insert_eq. do 2 eexists. split; [done|]. simpl.
  split; [|split; [by rewrite <- app_assoc|done]].
  rewrite delete_insert_eq. by apply delete_id.
Qed.

(** ** Joining, then sending and polling *)

(** X10.  A client that has joined can use the room: in the room that
    [Join] returns, whatever room it was called in, [Send] and
    [GetUpdates] under the assigned name succeed. *)
Theorem Join_then_use (cr cr1 : ChatRoom) (args : JoinArgs.t)
    (reply r1 : JoinReply.t) (clock : JoinClock) (e : option error) :
  Join cr args reply clock = (cr1, r1, e) →
  e = None ∧ JoinReply.Success r1 = true
  ∧ is_Some (clients cr1 !! JoinReply.AssignedName r1)
  ∧ (∀ msg rs t, ∃ cr2,
       Send cr1 (SendArgs.mk (JoinReply.AssignedName r1) msg) rs t
       = (cr2, SendReply.mk true, None))
  ∧ (∀ l ru, ∃ r,
       GetUpdates cr1 (UpdateArgs.mk (JoinReply.AssignedName r1) l) ru
       = (cr1, r, None)).
Proof.
  unfold Join. intros [= <- <- <-]. simpl.
  split; [done|]. split; [done|].
  split; [rewrite lookup_insert_eq; by eexists|]. split.
  - intros msg rs t. unfold Send. simpl. rewrite lookup_insert_eq. by eexists.
  - intros l ru. eexists. apply GetUpdates_registered. simpl.
    rewrite lookup_insert_eq. by eexists.
Qed.

(** X11.  A message that was sent reaches every other client: after a
    [Send] that succeeded, a poll by any other registered client with a
    cursor below the id of the message returns it as the last message of
    the reply, and the watermark is its id. *)
Theorem Send_reaches_others (cr cr' : ChatRoom) (args : SendArgs.t)
    (reply r : SendReply.t) (now : Time) (other : string) (l : Z)
    (ru : UpdateReply.t) :
  Send cr args reply now = (cr', r, None) →
  other ≠ SendArgs.ID args → is_Some (clients cr' !! other) → l < nextID cr →
  ∃ ru', GetUpdates cr' (UpdateArgs.mk other l) ru = (cr', ru', None)
    ∧ last (UpdateReply.Messages ru')
      = Some (Message.mk (nextID cr) (SendArgs.ID args) (SendArgs.Message args) now)
    ∧ UpdateReply.NewMsgID ru' = nextID cr.
Proof.
  unfold Send. destruct (clients cr !! SendArgs.ID args) as [cl|]; [|done].
  intros [= <- <-] Hne Hreg Hl.
  eexists. split; [by apply GetUpdates_registered|]. simpl.
  rewrite delivered_app. unfold delivered at 2 4. rewrite filter_cons, filter_nil.
  simpl. rewrite decide_True by (split; [done|congruence]).
  split; [by rewrite last_snoc|]. rewrite fmap_app. simpl. by rewrite last_snoc.
Qed.

(** ** The cursors stored in the registry *)

Lemma wrap_pred (z : Z) : GoInt.sub (GoInt.wrap z) 1 = GoInt.wrap (z - 1).
Proof.
  unfold GoInt.sub, GoInt.wrap.
  replace ((z + 2 ^ 63) mod 2 ^ 64 - 2 ^ 63 - 1 + 2 ^ 63)
    with ((z + 2 ^ 63) mod 2 ^ 64 - 1) by lia.
  rewrite Zminus_mod_idemp_l. f_equal. f_equal. lia.
Qed.

Lemma lastseen_grow (cr : ChatRoom) (m : Message.t) (k : string) (c : Client.t)
    (n : nat) :
  (n ≤ length (logs cr))%nat ∧ Client.LastSeen c = GoInt.wrap (Z.of_nat n) →
  ∃ n' : nat, (n' ≤ length (logs cr ++ [m]))%nat
              ∧ Client.LastSeen c = GoInt.wrap (Z.of_nat n').
Proof. intros [Hn Hc]. exists n. rewrite length_app. simpl. split; [lia|done]. Qed.

Lemma step_lastseen (cr : ChatRoom) (c : Call) :
  log_numbered cr → lastseen_in_log cr → lastseen_in_log (step cr c).
Proof.
  intros [_ Hnext] Hinv. unfold lastseen_in_log.
  destruct c as [args clock|args now|args|args now]; unfold step, serve.
  - unfold Join. simpl. intros k c.
    destruct (decide (assignName cr (JoinArgs.RequestedName args) (at_assign clock) = k))
      as [<-|Hne].
    + rewrite lookup_insert_eq. intros [= <-]. simpl.
      exists (length (logs cr)). rewrite length_app. simpl. split; [lia|].
      rewrite Hnext, wrap_pred. f_equal. lia.
    + rewrite lookup_insert_ne by done. intros Hk.
      destruct (Hinv k c Hk) as [n Hn]. by eapply lastseen_grow.
  - unfold Send. destruct (clients cr !! SendArgs.ID args) as [cl|] eqn:Hcl; [|done].
    simpl. intros k c. destruct (decide (SendArgs.ID args = k)) as [<-|Hne].
    + rewrite lookup_insert_eq. intros [= <-]. simpl.
      exists (S (length (logs cr))). rewrite length_app. simpl. split; [lia|].
      rewrite Hnext. f_equal. lia.
    + rewrite lookup_insert_ne by done. intros Hk.
      destruct (Hinv k c Hk) as [n Hn]. by eapply lastseen_grow.
  - pose proof (GetUpdates_same_room cr args UpdateReply.zero) as Hsame.
    destruct (GetUpdates _ _ _) as [[??]?]. simpl in *. by subst.
  - unfold Leave. destruct (clients cr !! LeaveArgs.ID args) as [cl|] eqn:Hcl; [|done].
    simpl. intros k c [_ Hk]%lookup_delete_Some.
    destruct (Hinv k c Hk) as [n Hn]. by eapply lastseen_grow.
Qed.

Lemma reachable_lastseen (cr : ChatRoom) : reachable cr → lastseen_in_log cr.
Proof.
  apply reachable_ind.
  - intros k c. simpl. by rewrite lookup_empty.
  - intros cr' c Hr. apply step_lastseen. by apply reachable_numbered.
Qed.

(** X12.  In a room reached from a new one, the [LastSeen] of every
    client is 0 or the id of a message of the log: it lies between 0 and
    the length of the log, so never at or above the counter's next id. *)
Theorem LastSeen_in_log (cr : ChatRoom) (k : string) (c : Client.t) :
  reachable cr → slice_ok (logs cr) → clients cr !! k = Some c →
  0 ≤ Client.LastSeen c ≤ Z.of_nat (length (logs cr))
  ∧ (Client.LastSeen c = 0
     ∨ ∃ m, m ∈ logs cr ∧ Message.ID m = Client.LastSeen c).
Proof.
  intros Hr Hok Hk. destruct (reachable_lastseen cr Hr k c Hk) as (n & Hn & Hc).
  rewrite wrap_in_range in Hc by int_bounds. split; [lia|].
  destruct n as [|n]; [by left|right].
  destruct (lookup_lt_is_Some_2 (logs cr) n) as [m Hm]; [lia|].
  exists m. split; [by eapply list_elem_of_lookup_2|].
  rewrite (numbered_lookup _ _ _ (reachable_numbered _ Hr) Hok Hm). lia.
Qed.

(** ** Names in the registry *)

Lemma step_no_empty_key (cr : ChatRoom) (c : Call) :
  clients cr !! "" = None → clients (step cr c) !! "" = None.
Proof.
  intros Hnone.
  destruct c as [args clock|args now|args|args now]; unfold step, serve.
  - unfold Join. simpl. rewrite lookup_insert_ne; [done|].
    apply assignName_not_empty.
  - unfold Send. destruct (clients cr !! SendArgs.ID args) as [cl|] eqn:Hcl; [|done].
    simpl. rewrite lookup_insert_ne; [done|]. intros Heq. congruence.
  - pose proof (GetUpdates_same_room cr args UpdateReply.zero) as Hsame.
    destruct (GetUpdates _ _ _) as [[??]?]. simpl in *. by subst.
  - unfold Leave. destruct (clients cr !! LeaveArgs.ID args) as [cl|] eqn:Hcl; [|done].
    simpl. by apply lookup_delete_None; right.
Qed.

(** X13.  The empty string is never the id of a client: in every room
    reached from a new one it is not a key of the registry, so [Send] and
    [GetUpdates] with an empty id always fail, and [Leave] with an empty
    id changes nothing. *)
Theorem no_empty_id (cr : ChatRoom) :
  reachable cr →
  clients cr !! "" = None
  ∧ (∀ msg rs t, Send cr (SendArgs.mk "" msg) rs t = (cr, rs, Some NotRegistered))
  ∧ (∀ l ru, GetUpdates cr (UpdateArgs.mk "" l) ru = (cr, ru, Some UnknownClient))
  ∧ (∀ rl t, Leave cr (LeaveArgs.mk "") rl t = (cr, rl, None)).
Proof.
  intros Hr. assert (clients cr !! "" = None) as Hnone.
  { revert cr Hr. apply reachable_ind; [done|].
    intros cr c _. apply step_no_empty_key. }
  split; [done|]. split; [|split].
  - intros msg rs t. unfold Send. simpl. by rewrite Hnone.
  - intros l ru. by apply GetUpdates_unknown.
  - intros rl t. by apply Leave_absent.
Qed.

(** X14.  The sender name "System" is not reserved.  In a room where it
    is free, [Join("System")] is assigned "System"; what this client sends
    is logged with sender "System", so the receivers of the other clients
    print it as they print a notice of the room, "[SYSTEM]" before the
    content; and its own polls return no notice of the room at all. *)
Theorem System_not_reserved (cr : ChatRoom) (reply : JoinReply.t)
    (clock : JoinClock) :
  clients cr !! "System" = None →
  ∃ cr1, Join cr (JoinArgs.mk "System") reply clock
         = (cr1, JoinReply.mk true "System" "Welcome! You are now System", None)
    ∧ (∀ content rs t, ∃ cr2,
         Send cr1 (SendArgs.mk "System" content) rs t = (cr2, SendReply.mk true, None)
         ∧ last (logs cr2) = Some (Message.mk (nextID cr1) "System" content t)
         ∧ show (decode (Message.mk (nextID cr1) "System" content t))
           = (newline +:+ "[SYSTEM] " +:+ content +:+ newline) +:+ "> ")
    ∧ (∀ l ru cr' r m,
         GetUpdates cr1 (UpdateArgs.mk "System" l) ru = (cr', r, None) →
         m ∈ UpdateReply.Messages r → Message.Sender m ≠ "System").
Proof.
  intros Hfree.
  assert (assignName cr "System" (at_assign clock) = "System") as Hname.
  { unfold assignName. simpl. by rewrite Hfree. }
  eexists. split; [unfold Join; simpl; by rewrite Hname|]. split.
  - intros content rs t. unfold Send. simpl. rewrite lookup_insert_eq.
    eexists. split; [done|]. simpl. split; [by rewrite last_snoc|done].
  - intros l ru cr' r m.
    rewrite GetUpdates_registered by (simpl; rewrite lookup_insert_eq; by eexists).
    intros [= <- <-]. simpl. by intros (_ & _ & Hne)%delivered_elem.
Qed.

(** * The further theorems at work on concrete rooms *)

Lemma pair_room_reachable : reachable pair_room.
Proof. by eexists. Qed.

Lemma serve_error_witness :
  serve echo_room (CallSend (SendArgs.mk "ghost" "x") (mkTime 0))
  = (echo_room, ReplySend SendReply.zero, Some NotRegistered)
  ∧ echo_room = echo_room.
Proof.
  split; [reflexivity|].
  exact (proj1 (serve_error echo_room echo_room
                  (CallSend (SendArgs.mk "ghost" "x") (mkTime 0))
                  (ReplySend SendReply.zero) NotRegistered eq_refl)).
Defined.

Lemma GetUpdates_again_witness :
  GetUpdates echo_room (UpdateArgs.mk "A" 0) UpdateReply.zero
  = (echo_room, UpdateReply.mk [join_notice 1 "A" (mkTime 0)] 1, None)
  ∧ GetUpdates echo_room (UpdateArgs.mk "A" 1) UpdateReply.zero
    = (echo_room, UpdateReply.mk [] 1, None).
Proof.
  split; [reflexivity|].
  exact (GetUpdates_again echo_room "A" 0 UpdateReply.zero UpdateReply.zero
           (UpdateReply.mk [join_notice 1 "A" (mkTime 0)] 1)
           echo_room_reachable echo_room_slice_ok eq_refl).
Defined.

Lemma GetUpdates_incremental_witness :
  GetUpdates echo_room (UpdateArgs.mk "A" 0) UpdateReply.zero
  = (echo_room, UpdateReply.mk [join_notice 1 "A" (mkTime 0)] 1, None)
  ∧ ∃ r2 r,
      GetUpdates (run echo_room [CallJoin (JoinArgs.mk "B") clock0])
        (UpdateArgs.mk "A" 1) UpdateReply.zero
      = (run echo_room [CallJoin (JoinArgs.mk "B") clock0], r2, None)
      ∧ GetUpdates (run echo_room [CallJoin (JoinArgs.mk "B") clock0])
          (UpdateArgs.mk "A" 0) UpdateReply.zero
        = (run echo_room [CallJoin (JoinArgs.mk "B") clock0], r, None)
      ∧ [join_notice 1 "A" (mkTime 0)] ++ UpdateReply.Messages r2
        = UpdateReply.Messages r
      ∧ UpdateReply.NewMsgID r2 = UpdateReply.NewMsgID r.
Proof.
  split; [reflexivity|].
  refine (GetUpdates_incremental echo_room [CallJoin (JoinArgs.mk "B") clock0]
            "A" 0 UpdateReply.zero UpdateReply.zero UpdateReply.zero
            (UpdateReply.mk [join_notice 1 "A" (mkTime 0)] 1)
            echo_room_reachable _ _ eq_refl).
  - vm_compute. discriminate.
  - by eexists.
Defined.

Lemma receiver_complete_witness :
  reachable pair_room
  ∧ receiver (session_run "A" (session_start pair_room) pair_events) = Polling 3
  ∧ screen (session_run "A" (session_start pair_room) pair_events)
    = decode <$> from_others "A"
        (logs (room (session_run "A" (session_start pair_room) pair_events))).
Proof.
  split; [apply pair_room_reachable|]. split; [reflexivity|].
  refine (proj2 (proj2 (proj2
            (receiver_complete "A" pair_room pair_events pair_room_reachable _)))
            [Tick;
             Served (CallSend (SendArgs.mk "B" "hello") (mkTime 0));
             Served (CallSend (SendArgs.mk "A" "hi") (mkTime 0))]
            3 eq_refl eq_refl).
  vm_compute. discriminate.
Defined.

Lemma Join_below_100_witness :
  (size (clients echo_room) < 100)%nat
  ∧ ∃ cr' r, Join echo_room (JoinArgs.mk "A") JoinReply.zero clock0 = (cr', r, None)
      ∧ clients echo_room !! JoinReply.AssignedName r = None
      ∧ size (clients cr') = S (size (clients echo_room)).
Proof.
  assert (size (clients echo_room) < 100)%nat as Hsize by (vm_compute; lia).
  split; [exact Hsize|].
  destruct (Join_below_100 echo_room (JoinArgs.mk "A") JoinReply.zero clock0 Hsize)
    as (cr' & r & HJoin & _ & _ & Hfree & _ & _ & Hgrow).
  exists cr', r. split; [exact HJoin|]. split; [exact Hfree|exact Hgrow].
Defined.

Lemma Leave_removes_witness :
  is_Some (clients echo_room !! "A")
  ∧ ∃ cr' r, Leave echo_room (LeaveArgs.mk "A") JoinReply.zero (mkTime 0)
             = (cr', r, None)
      ∧ clients cr' !! "A" = None
      ∧ S (size (clients cr')) = size (clients echo_room).
Proof.
  split; [apply echo_room_registered|].
  destruct (Leave_removes echo_room (LeaveArgs.mk "A") JoinReply.zero (mkTime 0)
              echo_room_registered)
    as (cr' & r & HLeave & _ & Hgone & _ & Hsize & _).
  exists cr', r. split; [exact HLeave|]. split; [exact Hgone|exact Hsize].
Defined.

Lemma Join_Leave_witness :
  clients echo_room !! "B" = None
  ∧ ∃ cr1 cr2 r2,
      Join echo_room (JoinArgs.mk "B") JoinReply.zero clock0
      = (cr1, JoinReply.mk true "B" "Welcome! You are now B", None)
      ∧ Leave cr1 (LeaveArgs.mk "B") JoinReply.zero (mkTime 0) = (cr2, r2, None)
      ∧ clients cr2 = clients echo_room.
Proof.
  split; [reflexivity|]. eexists.
  destruct (Join_Leave echo_room _ (JoinArgs.mk "B") JoinReply.zero
              (JoinReply.mk true "B" "Welcome! You are now B") JoinReply.zero
              clock0 (mkTime 0) eq_refl eq_refl)
    as (cr2 & r2 & HLeave & Hclients & _).
  exists cr2, r2. split; [reflexivity|]. split; [exact HLeave|exact Hclients].
Defined.

Lemma Join_then_use_witness :
  ∃ cr1, Join echo_room (JoinArgs.mk "A") JoinReply.zero clock0
         = (cr1, JoinReply.mk true "A1" "Welcome! You are now A1", None)
    ∧ is_Some (clients cr1 !! "A1").
Proof.
  eexists. split; [reflexivity|].
  exact (proj1 (proj2 (proj2
           (Join_then_use echo_room _ (JoinArgs.mk "A") JoinReply.zero
              (JoinReply.mk true "A1" "Welcome! You are now A1") clock0 None
              eq_refl)))).
Defined.

Lemma Send_reaches_others_witness :
  ∃ cr' ru',
    Send pair_room (SendArgs.mk "A" "hi") SendReply.zero (mkTime 0)
    = (cr', SendReply.mk true, None)
    ∧ is_Some (clients cr' !! "B")
    ∧ GetUpdates cr' (UpdateArgs.mk "B" 0) UpdateReply.zero = (cr', ru', None)
    ∧ last (UpdateReply.Messages ru') = Some (Message.mk 3 "A" "hi" (mkTime 0))
    ∧ UpdateReply.NewMsgID ru' = 3.
Proof.
  eexists.
  assert (is_Some (clients
            (Send pair_room (SendArgs.mk "A" "hi") SendReply.zero (mkTime 0)).1.1
            !! "B")) as Hreg by (by eexists).
  destruct (Send_reaches_others pair_room _ (SendArgs.mk "A" "hi") SendReply.zero
              (SendReply.mk true) (mkTime 0) "B" 0 UpdateReply.zero
              eq_refl ltac:(discriminate) Hreg eq_refl)
    as (ru' & Hpoll & Hlast & Hmark).
  exists ru'. split; [reflexivity|]. split; [exact Hreg|].
  split; [exact Hpoll|]. split; [exact Hlast|exact Hmark].
Defined.

Lemma LastSeen_in_log_witness :
  reachable echo_room ∧ slice_ok (logs echo_room)
  ∧ clients echo_room !! "A" = Some (Client.mk "A" 2 (mkTime 0) "A")
  ∧ 0 ≤ 2 ≤ Z.of_nat (length (logs echo_room)).
Proof.
  split; [apply echo_room_reachable|]. split; [apply echo_room_slice_ok|].
  split; [reflexivity|].
  exact (proj1 (LastSeen_in_log echo_room "A" (Client.mk "A" 2 (mkTime 0) "A")
                  echo_room_reachable echo_room_slice_ok eq_refl)).
Defined.

Lemma no_empty_id_witness :
  reachable echo_room ∧ clients echo_room !! "" = None.
Proof.
  split; [apply echo_room_reachable|].
  exact (proj1 (no_empty_id echo_room echo_room_reachable)).
Defined.

Lemma System_not_reserved_witness :
  clients echo_room !! "System" = None
  ∧ ∃ cr1, Join echo_room (JoinArgs.mk "System") JoinReply.zero clock0
           = (cr1, JoinReply.mk true "System" "Welcome! You are now System", None).
Proof.
  split; [reflexivity|].
  destruct (System_not_reserved echo_room JoinReply.zero clock0 eq_refl)
    as (cr1 & HJoin & _).
  exists cr1. exact HJoin.
Defined.
